(** * Logstyx Express middleware: response interception and redaction

    A shallow embedding of [express-middleware.js] (the request-lifecycle
    logging shim) together with the properties its specification states.

    Conventions of the embedding:
    - JavaScript values are a finite tree type [value]; numbers are the
      integers plus [NaN] (status codes and millisecond timestamps are
      integers); a function is the value its call returns; arrays are
      dense (no holes) and carry no property besides their elements;
    - an object is the ordered list of its own enumerable string-keyed
      properties, i.e. what [Object.entries] enumerates, with distinct
      keys; of its prototype only the [toObject] it lets the object
      inherit is kept;
    - the call stack is finite: [redactObject] nests at most [stack_limit]
      deep and throws a [RangeError] beyond; a cyclic object behaves as a
      value nested deeper than any limit and is not represented;
    - strings are sequences of 8-bit characters and [toLowerCase] acts on
      the letters A-Z;
    - exceptions are explicit: effectful code runs in a state monad whose
      outcome is a returned value or a thrown exception, the state being
      kept in both cases, as in JavaScript. *)

From Stdlib Require Import ZArith List String Ascii Bool Lia DecimalString.
Import ListNotations.

Local Open Scope string_scope.
Local Open Scope Z_scope.

(** ** JavaScript values *)

#[local] Unset Elimination Schemes.

Inductive value : Type :=
| VUndefined
| VNull
| VBool (b : bool)
| VNum (n : Z)
| VNaN
| VStr (s : string)
| VFun (returns : value)
| VArr (elems : list value)
| VObj (toObject : option value) (props : list (string * value)).

#[local] Set Elimination Schemes.

Inductive exn : Type :=
| TypeError (msg : string)
| RangeError (msg : string)
| Thrown (payload : value).

Inductive result (A : Type) : Type :=
| Ok (a : A)
| Throw (e : exn).

Arguments Ok {A} a.
Arguments Throw {A} e.

Definition rbind {A B} (r : result A) (k : A -> result B) : result B :=
  match r with
  | Ok a => k a
  | Throw e => Throw e
  end.

(** [!!v] of JavaScript. *)
Definition truthy (v : value) : bool :=
  match v with
  | VUndefined | VNull | VNaN => false
  | VBool b => b
  | VNum n => negb (n =? 0)
  | VStr s => negb (s =? "")%string
  | VFun _ | VArr _ | VObj _ _ => true
  end.

(** [v !== null && typeof v === "object"]. *)
Definition is_object (v : value) : bool :=
  match v with
  | VArr _ | VObj _ _ => true
  | _ => false
  end.

(** [a || b]. *)
Definition js_or (a b : value) : value := if truthy a then a else b.

Definition lower_ascii (c : ascii) : ascii :=
  let n := nat_of_ascii c in
  if (Nat.leb 65 n && Nat.leb n 90)%bool then ascii_of_nat (n + 32) else c.

Fixpoint toLowerCase (s : string) : string :=
  match s with
  | EmptyString => EmptyString
  | String c s' => String (lower_ascii c) (toLowerCase s')
  end.

(** [arr.includes(s)] on an array of strings. *)
Definition includes (arr : list string) (s : string) : bool :=
  existsb (String.eqb s) arr.

(** The property key of array index [i]. *)
Definition index_key (i : nat) : string :=
  NilZero.string_of_uint (Nat.to_uint i).

(** [String(n)] for an integer. *)
Definition string_of_Z (n : Z) : string :=
  NilZero.string_of_int (Z.to_int n).

(** [o[k] = v] on an object: overwrite in place or append. *)
Fixpoint obj_set (o : list (string * value)) (k : string) (v : value)
  : list (string * value) :=
  match o with
  | [] => [(k, v)]
  | (k', v') :: o' =>
      if (k' =? k)%string then (k', v) :: o' else (k', v') :: obj_set o' k v
  end.

(** [o[k]] on an object; [undefined] when absent. *)
Fixpoint obj_get (o : list (string * value)) (k : string) : value :=
  match o with
  | [] => VUndefined
  | (k', v') :: o' => if (k' =? k)%string then v' else obj_get o' k
  end.

(** [a[i] = v] on an array: overwrite, or extend (holes read [undefined]). *)
Fixpoint arr_set (a : list value) (i : nat) (v : value) : list value :=
  match a, i with
  | [], O => [v]
  | [], S i' => VUndefined :: arr_set [] i' v
  | _ :: a', O => v :: a'
  | x :: a', S i' => x :: arr_set a' i' v
  end.

(** [Object.entries(s)] of a string: one entry per character. *)
Fixpoint string_entries (i : nat) (s : string) : list (string * value) :=
  match s with
  | EmptyString => []
  | String c s' =>
      (index_key i, VStr (String c EmptyString)) :: string_entries (S i) s'
  end.

(** ** Redactor *)

Definition REDACTED : value := VStr "[REDACTED]".

(** The body of the [for ... of Object.entries(obj)] loop for one entry:
    the value stored under [k] in [out]. *)
Definition redact_entry (rec : value -> result value)
    (redactFields : list string) (k : string) (v : value) : result value :=
  if includes redactFields (toLowerCase k) then Ok REDACTED
  else if is_object v then rec v
  else Ok v.

(** [o[k]] on the own properties of an object, when there is one. *)
Fixpoint own_prop (o : list (string * value)) (k : string) : option value :=
  match o with
  | [] => None
  | (k', v') :: o' => if (k' =? k)%string then Some v' else own_prop o' k
  end.

(** The value [obj.toObject()] returns when [obj.toObject] is a function:
    an own property of that name hides the inherited one. *)
Definition toObject_of (obj : value) : option value :=
  match obj with
  | VObj inherited props =>
      match own_prop props "toObject" with
      | Some (VFun r) => Some r
      | Some _ => None
      | None => inherited
      end
  | _ => None
  end.

(** [out[k] = x] on the mapping under construction, which is a fresh
    [{}]: the inherited [toObject], if any, and the own properties.
    [__proto__] is the accessor of [Object.prototype]: assigning an
    object, a function or [null] to it replaces the prototype of [out]
    and creates no property, assigning anything else does nothing. *)
Definition assign (out : option value * list (string * value)) (k : string)
    (x : value) : option value * list (string * value) :=
  if (k =? "__proto__")%string then
    match x with
    | VObj _ _ | VArr _ | VFun _ => (toObject_of x, snd out)
    | VNull => (None, snd out)
    | _ => out
    end
  else (fst out, obj_set (snd out) k x).

(** The loop over the entries of a mapping, [out] being the object under
    construction. *)
Definition walk_obj (rec : value -> result value) (redactFields : list string)
  : list (string * value) -> option value * list (string * value)
    -> result (option value * list (string * value)) :=
  fix walk es out :=
    match es with
    | [] => Ok out
    | (k, v) :: es' =>
        match redact_entry rec redactFields k v with
        | Ok x => walk es' (assign out k x)
        | Throw e => Throw e
        end
    end.

(** The loop over the entries of an array, [i] being the index of the next
    element and [out] the array under construction. *)
Definition walk_arr (rec : value -> result value) (redactFields : list string)
  : nat -> list value -> list value -> result (list value) :=
  fix walk i l out :=
    match l with
    | [] => Ok out
    | v :: l' =>
        match redact_entry rec redactFields (index_key i) v with
        | Ok x => walk (S i) l' (arr_set out i x)
        | Throw e => Throw e
        end
    end.

Definition as_obj (r : result (option value * list (string * value)))
  : result value :=
  rbind r (fun out => Ok (VObj (fst out) (snd out))).

Definition as_arr (r : result (list value)) : result value :=
  rbind r (fun out => Ok (VArr out)).

(** The value whose entries the walk enumerates, after
    [if (obj.toObject && typeof obj.toObject === 'function')
       obj = obj.toObject();]. *)
Definition walked (obj : value) : value :=
  match toObject_of obj with
  | Some r => r
  | None => obj
  end.

(** [Object.entries(o)] for a value that is not [null] or [undefined]. *)
Definition entries (o : value) : list (string * value) :=
  match o with
  | VObj _ es => es
  | VArr l => combine (map index_key (seq 0 (List.length l))) l
  | VStr s => string_entries 0 s
  | _ => []
  end.

(** [redactObject] with [stack] frames left on the call stack: the call
    itself takes one, and fails when none is left. *)
Fixpoint redact_in (stack : nat) (obj : value) (redactFields : list string)
  {struct stack} : result value :=
  match stack with
  | O => Throw (RangeError "Maximum call stack size exceeded")
  | S stack' =>
      let rec := fun v => redact_in stack' v redactFields in
      (* if (!obj || typeof obj !== "object") return obj; *)
      if negb (is_object obj) then Ok obj
      else
        match walked obj with
        | VUndefined | VNull =>
            Throw (TypeError "Cannot convert undefined or null to object")
        | VArr l =>
            (* out = [] *)
            as_arr (walk_arr rec redactFields 0 l [])
        | o =>
            (* out = {} *)
            as_obj (walk_obj rec redactFields (entries o) (None, []))
        end
  end.

(** The nesting at which the call stack is exhausted.  Its value is the
    engine's and depends on the frames below the call; what is proved of
    [redact_in] holds for every value of it. *)
Definition stack_limit : nat := Eval vm_compute in (100 * 100)%nat.

Definition redactObject (obj : value) (redactFields : list string)
  : result value :=
  redact_in stack_limit obj redactFields.

(** ** Configuration, request and per-request state *)

(** The three response-emitting operations, [res.send], [res.json] and
    [res.end]. *)
Inductive op : Type := OpSend | OpJson | OpEnd.

Definition methods : list op := [OpSend; OpJson; OpEnd].

Record levels : Type := {
  success : string;
  error : string;
  critical : string;
  warning : string
}.

(** The part of the Express request the middleware reads.  [req_userAgent]
    is [req.get('User-Agent')] and [req_x_request_id] is
    [req.headers['x-request-id']]. *)
Record request : Type := {
  req_method : string;
  req_path : string;
  req_url : value;
  req_ip : value;
  req_userAgent : value;
  req_id : value;
  req_x_request_id : value;
  req_user : value;
  req_auth : value;
  req_session : value;
  req_locals : value;
  req_context : value;
  req_currentUser : value;
  req_account : value;
  req_profile : value;
  req_admin : value;
  req_query : value;
  req_params : value;
  req_body : value
}.

(** The sink [logstyx] is the method table of the logger: the method named
    by a level, applied to a record, returns or throws (a missing method
    is a [TypeError]). *)
Record config : Type := {
  logstyx : string -> value -> result unit;
  redactFields : list string;
  buildRequestPayload : request -> result value;
  contextHook : option (request -> result value);
  trackPerformance : bool;
  slowRequestThreshold : Z;
  logLevels : levels
}.

(** An error object; [err_statusCode] and [err_status] are absent or
    numbers, [err_name] is [err.constructor.name]. *)
Record error_obj : Type := {
  err_message : value;
  err_stack : value;
  err_name : value;
  err_code : value;
  err_statusCode : option Z;
  err_status : option Z
}.

(** What surrounds one request: the readings [Date.now()] will return, the
    original response operations, and whether [NODE_ENV] is
    ['development']. *)
Record env : Type := {
  clock : nat -> Z;
  originals : op -> list value -> result value;
  development : bool
}.

(** The mutable state of one request: [req._startTime], [res.statusCode],
    the closure variable [logged], and what has been observed from
    outside: the calls made to the sink, the calls forwarded to the
    original operations (with the status at that moment) and the calls of
    [next]. *)
Record world : Type := {
  tick : nat;
  startTime : option Z;
  statusCode : Z;
  logged : bool;
  sinkCalls : list (string * value);
  forwarded : list (op * list value * Z);
  nexts : list (option error_obj)
}.

Definition initial_world : world :=
  {| tick := 0; startTime := None; statusCode := 200; logged := false;
     sinkCalls := []; forwarded := []; nexts := [] |}.

(** ** The monad of request handling: state and exceptions *)

Definition M (A : Type) : Type := world -> result A * world.

Definition ret {A} (a : A) : M A := fun w => (Ok a, w).

Definition throw {A} (e : exn) : M A := fun w => (Throw e, w).

Definition bind {A B} (c : M A) (k : A -> M B) : M B :=
  fun w =>
    match c w with
    | (Ok a, w') => k a w'
    | (Throw e, w') => (Throw e, w')
    end.

Definition lift {A} (r : result A) : M A := fun w => (r, w).

Definition gets {A} (f : world -> A) : M A := fun w => (Ok (f w), w).

Definition modify (f : world -> world) : M unit := fun w => (Ok tt, f w).

Declare Scope js_scope.
Delimit Scope js_scope with js.
Notation "x <- c ;; k" := (bind c (fun x => k))
  (at level 61, c at next level, right associativity) : js_scope.
Notation "c ;;; k" := (bind c (fun _ => k))
  (at level 61, right associativity) : js_scope.
Local Open Scope js_scope.

Definition when (b : bool) (c : M unit) : M unit := if b then c else ret tt.

Definition set_tick n w :=
  {| tick := n; startTime := startTime w; statusCode := statusCode w;
     logged := logged w; sinkCalls := sinkCalls w; forwarded := forwarded w;
     nexts := nexts w |}.

Definition set_startTime t w :=
  {| tick := tick w; startTime := t; statusCode := statusCode w;
     logged := logged w; sinkCalls := sinkCalls w; forwarded := forwarded w;
     nexts := nexts w |}.

Definition set_statusCode s w :=
  {| tick := tick w; startTime := startTime w; statusCode := s;
     logged := logged w; sinkCalls := sinkCalls w; forwarded := forwarded w;
     nexts := nexts w |}.

Definition set_logged b w :=
  {| tick := tick w; startTime := startTime w; statusCode := statusCode w;
     logged := b; sinkCalls := sinkCalls w; forwarded := forwarded w;
     nexts := nexts w |}.

Definition add_sinkCall c w :=
  {| tick := tick w; startTime := startTime w; statusCode := statusCode w;
     logged := logged w; sinkCalls := sinkCalls w ++ [c];
     forwarded := forwarded w; nexts := nexts w |}.

Definition add_forwarded c w :=
  {| tick := tick w; startTime := startTime w; statusCode := statusCode w;
     logged := logged w; sinkCalls := sinkCalls w;
     forwarded := forwarded w ++ [c]; nexts := nexts w |}.

Definition add_next c w :=
  {| tick := tick w; startTime := startTime w; statusCode := statusCode w;
     logged := logged w; sinkCalls := sinkCalls w; forwarded := forwarded w;
     nexts := nexts w ++ [c] |}.

(** [Date.now()]: the next reading of the clock. *)
Definition date_now (E : env) : M Z :=
  fun w => (Ok (clock E (tick w)), set_tick (S (tick w)) w).

(** [config.logstyx[level](logData)]. *)
Definition sink_send (cfg : config) (level : string) (logData : value)
  : M unit :=
  modify (add_sinkCall (level, logData)) ;;;
  lift (logstyx cfg level logData).

(** [originals[method].apply(this, args)]. *)
Definition call_original (E : env) (method : op) (args : list value)
  : M value :=
  s <- gets statusCode ;;
  modify (add_forwarded (method, args, s)) ;;;
  lift (originals E method args).

(** [next()] and [next(err)]. *)
Definition next (err : option error_obj) : M unit := modify (add_next err).

(** ** Payload builder *)

(** [v.k] and [v?.k] for the property names probed below ([user], [id],
    [email], [username], [isAdmin], [admin]): only objects carry them. *)
Definition prop (v : value) (k : string) : value :=
  match v with
  | VObj _ es => obj_get es k
  | _ => VUndefined
  end.

(** [userSources.find(pred)], [undefined] when nothing matches. *)
Fixpoint js_find (pred : value -> bool) (l : list value) : value :=
  match l with
  | [] => VUndefined
  | x :: l' => if pred x then x else js_find pred l'
  end.

Definition findUserInRequest (req : request) : value :=
  let userSources :=
    [req_user req; prop (req_auth req) "user"; prop (req_session req) "user";
     prop (req_locals req) "user"; prop (req_context req) "user";
     req_currentUser req; req_account req; req_profile req] in
  let user :=
    js_find (fun source =>
               truthy source &&
               truthy (js_or (js_or (prop source "id") (prop source "email"))
                             (prop source "username")))%bool
            userSources in
  js_or user VNull.

Definition findAdminInRequest (req : request) : value :=
  js_or (js_or (req_admin req)
               (if truthy (prop (req_user req) "isAdmin") then req_user req
                else VNull))
        (prop (req_session req) "admin").

Definition defaultBuildRequestPayload (req : request) : value :=
  VObj None
    [("method", VStr (req_method req));
     ("url", req_url req);
     ("path", VStr (req_path req));
     ("ip", req_ip req);
     ("userAgent", req_userAgent req);
     ("requestId", js_or (req_id req) (req_x_request_id req));
     ("user", findUserInRequest req);
     ("admin", findAdminInRequest req);
     ("session", if truthy (req_session req)
                 then VObj None [("id", prop (req_session req) "id")]
                 else VNull);
     ("query", req_query req);
     ("params", req_params req)].

(** The own enumerable properties an object spread [...v] copies. *)
Definition indexed (l : list value) : list (string * value) :=
  combine (map index_key (seq 0 (List.length l))) l.

Definition spread (v : value) : list (string * value) :=
  match v with
  | VObj _ es => es
  | VArr l => indexed l
  | VStr s => string_entries 0 s
  | _ => []
  end.

(** Object-literal construction: define the properties [ps] on [o] in
    order, a repeated key keeping its first position. *)
Definition obj_assign (o ps : list (string * value)) : list (string * value) :=
  fold_left (fun acc kv => obj_set acc (fst kv) (snd kv)) ps o.

Definition buildFinalPayload (req : request) (cfg : config) : result value :=
  rbind (buildRequestPayload cfg req) (fun context =>
  rbind (match contextHook cfg with
         | Some hook =>
             rbind (hook req) (fun customPayload =>
             Ok (VObj None (obj_assign (obj_assign [] (spread context))
                                       (spread customPayload))))
         | None => Ok context
         end) (fun context =>
  redactObject context (redactFields cfg))).

(** ** Outcome classifier *)

Definition isMutation (m : string) : bool :=
  includes ["POST"; "PUT"; "PATCH"; "DELETE"] m.

(** [Date.now() - req._startTime]. *)
Definition elapsed (now : Z) (start : option Z) : value :=
  match start with
  | Some s => VNum (now - s)
  | None => VNaN
  end.

(** [responseTime > threshold] for a response time that is [null], a
    number or [NaN]. *)
Definition exceeds (responseTime : value) (threshold : Z) : bool :=
  match responseTime with
  | VNum n => threshold <? n
  | VNull => threshold <? 0
  | _ => false
  end.

(** [!!req._startTime]. *)
Definition started (start : option Z) : bool :=
  match start with
  | Some s => negb (s =? 0)
  | None => false
  end.

(** [shouldLogSuccess(res, req, config)]; [config] is [None] when the
    caller passes no third argument. *)
Definition shouldLogSuccess (E : env) (req : request) (cfg : option config)
  : M bool :=
  s <- gets statusCode ;;
  let isSuccessful := ((200 <=? s) && (s <? 300))%bool in
  if negb (isMutation (req_method req)) then ret false
  else
    st <- gets startTime ;;
    match cfg with
    | Some c =>
        if (trackPerformance c && started st)%bool then
          now <- date_now E ;;
          if exceeds (elapsed now st) (slowRequestThreshold c) then ret false
          else ret isSuccessful
        else ret isSuccessful
    | None => ret isSuccessful
    end.

Definition shouldLogWarning (E : env) (req : request) (cfg : option config)
  : M bool :=
  st <- gets startTime ;;
  match cfg with
  | Some c =>
      if (negb (trackPerformance c) || negb (started st))%bool then ret false
      else
        now <- date_now E ;;
        let isSlow := exceeds (elapsed now st) (slowRequestThreshold c) in
        s <- gets statusCode ;;
        let isSuccessful := ((200 <=? s) && (s <? 300))%bool in
        ret (isSuccessful && isSlow)%bool
  | None => ret false
  end.

(** ** Response interceptor *)

(** [config.trackPerformance ? Date.now() - req._startTime : null]. *)
Definition responseTime_of (E : env) (cfg : config) : M value :=
  if trackPerformance cfg then
    now <- date_now E ;;
    st <- gets startTime ;;
    ret (elapsed now st)
  else ret VNull.

(** [`${responseTime}`] for a response time that is [null], a number or
    [NaN]. *)
Definition show_time (responseTime : value) : string :=
  match responseTime with
  | VNum n => string_of_Z n
  | VNaN => "NaN"
  | _ => "null"
  end.

(** [method === "json" || method === "send" ?
     redactObject(args[0], config.redactFields) : null]. *)
Definition response_of (cfg : config) (method : op) (args : list value)
  : result value :=
  match method with
  | OpJson | OpSend => redactObject (nth 0 args VUndefined) (redactFields cfg)
  | OpEnd => Ok VNull
  end.

(** The record shared by [logSuccess] and [logWarning], which differ in
    the message and in the level. *)
Definition completion_record (E : env) (req : request) (method : op)
    (args : list value) (cfg : config) (message : value -> string)
  : M value :=
  responseTime <- responseTime_of E cfg ;;
  requestPayload <- lift (buildFinalPayload req cfg) ;;
  body <- lift (redactObject (req_body req) (redactFields cfg)) ;;
  response <- lift (response_of cfg method args) ;;
  s <- gets statusCode ;;
  ret (VObj None
         (obj_assign
            (obj_assign [("title", VStr (req_method req ++ " " ++ req_path req));
                         ("message", VStr (message responseTime))]
                        (spread requestPayload))
            [("body", body);
             ("response", response);
             ("responseTime", responseTime);
             ("statusCode", VNum s);
             ("isSlow",
              VBool (exceeds responseTime (slowRequestThreshold cfg)))])).

(** The [message] of a success record and of a slow-request record. *)
Definition success_message (responseTime : value) : string :=
  "Request completed successfully".

Definition warning_message (responseTime : value) : string :=
  "Slow request detected (" ++ show_time responseTime ++ "ms)".

Definition logSuccess (E : env) (req : request) (method : op)
    (args : list value) (cfg : config) : M unit :=
  logData <- completion_record E req method args cfg success_message ;;
  sink_send cfg (success (logLevels cfg)) logData.

Definition logWarning (E : env) (req : request) (method : op)
    (args : list value) (cfg : config) : M unit :=
  logData <- completion_record E req method args cfg warning_message ;;
  sink_send cfg (warning (logLevels cfg)) logData.

(** The function installed as [res[method]] by the success handler. *)
Definition wrapped (E : env) (cfg : config) (req : request) (method : op)
    (args : list value) : M value :=
  l <- gets logged ;;
  ok <- (if l then ret false else shouldLogSuccess E req None) ;;
  when ok (modify (set_logged true) ;;;
           logSuccess E req method args cfg) ;;;
  l <- gets logged ;;
  slow <- (if l then ret false else shouldLogWarning E req (Some cfg)) ;;
  when slow (modify (set_logged true) ;;;
             logWarning E req method args cfg) ;;;
  call_original E method args.

(** The handler [createSuccessHandler(config)] returns, after it has
    installed the wrappers: [logged = false], the start time, then
    [next()]. *)
Definition createSuccessHandler (E : env) (cfg : config) : M unit :=
  modify (set_logged false) ;;;
  when (trackPerformance cfg)
       (now <- date_now E ;; modify (set_startTime (Some now))) ;;;
  next None.

(** The same wrapper in [src/lib/middleware.js], which has no
    slow-request branch and a two-argument [shouldLogSuccess]. *)
Definition shouldLogSuccess_lib (req : request) : M bool :=
  s <- gets statusCode ;;
  ret ((200 <=? s) && (s <? 300) && isMutation (req_method req))%bool.

Definition wrapped_lib (E : env) (cfg : config) (req : request) (method : op)
    (args : list value) : M value :=
  l <- gets logged ;;
  ok <- (if l then ret false else shouldLogSuccess_lib req) ;;
  when ok (modify (set_logged true) ;;;
           logSuccess E req method args cfg) ;;;
  call_original E method args.

(** A run of response-emitting calls within one request; the application
    may set [res.statusCode] before each of them. *)
Record call : Type := {
  call_status : option Z;
  call_op : op;
  call_args : list value
}.

Definition do_call (E : env) (cfg : config) (req : request) (c : call)
  : M value :=
  match call_status c with
  | Some s => modify (set_statusCode s)
  | None => ret tt
  end ;;;
  wrapped E cfg req (call_op c) (call_args c).

(** The calls in order; a call that throws does not stop the later ones
    here, so that every sequence of calls is covered. *)
Fixpoint run_calls (E : env) (cfg : config) (req : request) (cs : list call)
  (w : world) : world :=
  match cs with
  | [] => w
  | c :: cs' => run_calls E cfg req cs' (snd (do_call E cfg req c w))
  end.

(** ** Error path *)

(** [!!n] for an absent or numeric field. *)
Definition num_truthy (o : option Z) : bool :=
  match o with
  | Some n => negb (n =? 0)
  | None => false
  end.

(** [err.statusCode || err.status || 500]. *)
Definition resolved_status (err : error_obj) : Z :=
  match err_statusCode err, err_status err with
  | Some n, Some m => if n =? 0 then if m =? 0 then 500 else m else n
  | Some n, None => if n =? 0 then 500 else n
  | None, Some m => if m =? 0 then 500 else m
  | None, None => 500
  end.

(** [err.statusCode >= 500]. *)
Definition statusCode_ge_500 (err : error_obj) : bool :=
  match err_statusCode err with
  | Some n => 500 <=? n
  | None => false
  end.

Definition opt_value (o : option Z) : value :=
  match o with
  | Some n => VNum n
  | None => VUndefined
  end.

Definition logError (E : env) (err : error_obj) (req : request) (cfg : config)
  : M unit :=
  responseTime <- responseTime_of E cfg ;;
  requestPayload <- lift (buildFinalPayload req cfg) ;;
  body <- lift (redactObject (req_body req) (redactFields cfg)) ;;
  let logData :=
    VObj None
      (obj_assign
         (obj_assign [("title", VStr (req_method req ++ " " ++ req_path req));
                      ("message", err_message err)]
                     (spread requestPayload))
         [("stack", err_stack err);
          ("errorType", err_name err);
          ("code", err_code err);
          ("body", body);
          ("responseTime", responseTime);
          ("statusCode", VNum (resolved_status err))]) in
  let logLevel :=
    if statusCode_ge_500 err then critical (logLevels cfg)
    else error (logLevels cfg) in
  sink_send cfg logLevel logData.

(** [res.status(statusCode)]. *)
Definition res_status (s : Z) : M unit := modify (set_statusCode s).

(** The current [res.json]: the wrapped one when the success handler ran
    on this request ([installed]), the original one otherwise. *)
Definition res_json (E : env) (cfg : config) (req : request)
    (installed : bool) (args : list value) : M value :=
  if installed then wrapped E cfg req OpJson args
  else call_original E OpJson args.

(** The handler [createErrorHandler(config)] returns. *)
Definition createErrorHandler (E : env) (cfg : config) (installed : bool)
    (err : error_obj) (req : request) : M unit :=
  let statusCode := resolved_status err in
  res_status statusCode ;;;
  _ <- res_json E cfg req installed
         [VObj None
            (obj_assign
               [("error", js_or (err_message err) (VStr "Internal Server Error"))]
               (if development E then [("stack", err_stack err)] else []))] ;;
  logError E err req cfg ;;;
  next (Some err).

Definition notFoundError (req : request) : error_obj :=
  {| err_message :=
       VStr ("Route not found: " ++ req_method req ++ " " ++ req_path req);
     err_stack := VUndefined;
     err_name := VStr "Error";
     err_code := VStr "NOT_FOUND";
     err_statusCode := Some 404;
     err_status := None |}.

(** The handler [createNotFoundHandler(config)] returns. *)
Definition createNotFoundHandler (req : request) : M unit :=
  next (Some (notFoundError req)).

(** ** The configuration assembled by [createExpressMiddleware] *)

Definition default_redactFields : list string :=
  ["mobile"; "phone"; "email"; "password"; "token"; "authorization";
   "creditCard"].

Definition default_logLevels : levels :=
  {| success := "SUCCESS"; error := "ERROR"; critical := "CRITICAL";
     warning := "WARNING" |}.

Record options : Type := {
  opt_logstyxInstance : option (string -> value -> result unit);
  opt_redactFields : option (list string);
  opt_buildRequestPayload : option (request -> result value);
  opt_contextHook : option (request -> result value);
  opt_trackPerformance : option bool;
  opt_slowRequestThreshold : option Z;
  opt_logLevels : option levels
}.

(** [console[level]]: the console has no method named after a level in
    upper case, and calling a missing method is a [TypeError]. *)
Definition console (level : string) (logData : value) : result unit :=
  if includes ["log"; "info"; "warn"; "error"; "debug"; "trace"; "dir";
               "dirxml"; "table"; "group"; "groupCollapsed"; "groupEnd";
               "count"; "countReset"; "assert"; "clear"; "time"; "timeEnd";
               "timeLog"; "timeStamp"; "profile"; "profileEnd"] level
  then Ok tt
  else Throw (TypeError "config.logstyx[...] is not a function").

Definition default {A} (o : option A) (d : A) : A :=
  match o with
  | Some a => a
  | None => d
  end.

(** The [config] object of [createExpressMiddleware]: the defaults, each
    overridden by the option of the same name when it is present (the
    trailing [...options]). *)
Definition createConfig (o : options) : config :=
  {| logstyx := default (opt_logstyxInstance o) console;
     redactFields := default (opt_redactFields o) default_redactFields;
     buildRequestPayload :=
       default (opt_buildRequestPayload o)
               (fun req => Ok (defaultBuildRequestPayload req));
     contextHook := opt_contextHook o;
     trackPerformance := default (opt_trackPerformance o) true;
     slowRequestThreshold := default (opt_slowRequestThreshold o) 1000;
     logLevels := default (opt_logLevels o) default_logLevels |}.

(** ** Notions used to state the properties *)

(** The value of [responseTime] computed in state [w], and the state after
    that computation (which reads the clock when tracking is on). *)
Definition responseTime_at (E : env) (cfg : config) (w : world) : value :=
  if trackPerformance cfg then elapsed (clock E (tick w)) (startTime w)
  else VNull.

Definition after_reading (cfg : config) (w : world) : world :=
  if trackPerformance cfg then set_tick (S (tick w)) w else w.

(** The record [logSuccess] and [logWarning] build from a response time
    and a status code, or the exception building it throws. *)
Definition completion_data (req : request) (method : op) (args : list value)
    (cfg : config) (message : value -> string) (responseTime : value)
    (s : Z) : result value :=
  rbind (buildFinalPayload req cfg) (fun requestPayload =>
  rbind (redactObject (req_body req) (redactFields cfg)) (fun body =>
  rbind (response_of cfg method args) (fun response =>
  Ok (VObj None
        (obj_assign
           (obj_assign [("title", VStr (req_method req ++ " " ++ req_path req));
                        ("message", VStr (message responseTime))]
                       (spread requestPayload))
           [("body", body);
            ("response", response);
            ("responseTime", responseTime);
            ("statusCode", VNum s);
            ("isSlow",
             VBool (exceeds responseTime (slowRequestThreshold cfg)))]))))).

(** The record [logError] builds. *)
Definition error_data (err : error_obj) (req : request) (cfg : config)
    (responseTime : value) : result value :=
  rbind (buildFinalPayload req cfg) (fun requestPayload =>
  rbind (redactObject (req_body req) (redactFields cfg)) (fun body =>
  Ok (VObj None
        (obj_assign
           (obj_assign [("title", VStr (req_method req ++ " " ++ req_path req));
                        ("message", err_message err)]
                       (spread requestPayload))
           [("stack", err_stack err);
            ("errorType", err_name err);
            ("code", err_code err);
            ("body", body);
            ("responseTime", responseTime);
            ("statusCode", VNum (resolved_status err))])))).

(** The level [logError] selects. *)
Definition error_level (err : error_obj) (cfg : config) : string :=
  if statusCode_ge_500 err then critical (logLevels cfg)
  else error (logLevels cfg).

(** [200 <= s && s < 300]. *)
Definition isSuccessful (s : Z) : bool := (200 <=? s) && (s <? 300).

(** One request from the success handler on: the handler runs on a fresh
    state, then the application makes its response-emitting calls. *)
Definition started_world (E : env) (cfg : config) : world :=
  snd (createSuccessHandler E cfg initial_world).

Definition run_request (E : env) (cfg : config) (req : request)
    (cs : list call) : world :=
  run_calls E cfg req cs (started_world E cfg).

(** The levels at which the sink was called. *)
Definition emitted_levels (w : world) : list string := map fst (sinkCalls w).

(** The number of sink calls each call of a run makes. *)
Fixpoint emissions (E : env) (cfg : config) (req : request) (cs : list call)
  (w : world) : list nat :=
  match cs with
  | [] => []
  | c :: cs' =>
      let w' := snd (do_call E cfg req c w) in
      (List.length (sinkCalls w') - List.length (sinkCalls w))%nat
        :: emissions E cfg req cs' w'
  end.

(** ** Sample inputs *)

Definition accepting_sink (level : string) (logData : value) : result unit :=
  Ok tt.

Definition failing_sink (level : string) (logData : value) : result unit :=
  Throw (Thrown (VStr "sink unavailable")).

Definition options_with (sink : option (string -> value -> result unit))
    (track : option bool) (threshold : option Z) : options :=
  {| opt_logstyxInstance := sink;
     opt_redactFields := None;
     opt_buildRequestPayload := None;
     opt_contextHook := None;
     opt_trackPerformance := track;
     opt_slowRequestThreshold := threshold;
     opt_logLevels := None |}.

Definition sample_request (method path : string) (body : value) : request :=
  {| req_method := method;
     req_path := path;
     req_url := VStr path;
     req_ip := VStr "127.0.0.1";
     req_userAgent := VStr "curl/8";
     req_id := VUndefined;
     req_x_request_id := VStr "r-1";
     req_user := VObj None [("id", VNum 7); ("email", VStr "a@b.c")];
     req_auth := VUndefined;
     req_session := VUndefined;
     req_locals := VUndefined;
     req_context := VUndefined;
     req_currentUser := VUndefined;
     req_account := VUndefined;
     req_profile := VUndefined;
     req_admin := VUndefined;
     req_query := VObj None [];
     req_params := VObj None [];
     req_body := body |}.

(** A clock whose first reading (the start of the request) is [start] and
    whose [n]-th later reading is [start + after n]. *)
Definition clock_from (start : Z) (after : nat -> Z) (n : nat) : Z :=
  match n with
  | O => start
  | S n' => start + after n'
  end.

Definition sample_env (start : Z) (after : nat -> Z) : env :=
  {| clock := clock_from start after;
     originals := fun method args => Ok (VStr "res");
     development := false |}.

Definition a_call (status : Z) (method : op) (args : list value) : call :=
  {| call_status := Some status; call_op := method; call_args := args |}.

Definition sample_error (statusCode status : option Z) : error_obj :=
  {| err_message := VStr "boom";
     err_stack := VStr "Error: boom at handler";
     err_name := VStr "Error";
     err_code := VUndefined;
     err_statusCode := statusCode;
     err_status := status |}.

(** The body of the client-facing error response. *)
Definition error_body (E : env) (err : error_obj) : value :=
  VObj None
    (obj_assign
       [("error", js_or (err_message err) (VStr "Internal Server Error"))]
       (if development E then [("stack", err_stack err)] else [])).

(** The reading of "at most one automatic log, for the first call" on the
    per-call emission counts of a run. *)
Definition first_call_only (counts : list nat) : Prop :=
  (list_sum counts <= 1)%nat /\ Forall (fun n => n = 0%nat) (tl counts).

(** A request that took [ms] milliseconds at each reading of the clock. *)
Definition env_after (ms : Z) : env := sample_env 1700000000000 (fun _ => ms).

(** A request whose first response call comes after 900 ms and whose
    later ones come after 1100 ms, as when [res.json] calls [res.send],
    which calls [res.end]. *)
Definition env_crossing : env :=
  sample_env 1700000000000 (fun n => match n with O => 900 | _ => 1100 end).

Definition default_options : options := options_with None None None.

(** The default configuration with a sink that accepts every record. *)
Definition accepting_config : config :=
  createConfig (options_with (Some accepting_sink) None None).

Definition failing_config : config :=
  createConfig (options_with (Some failing_sink) None None).

Definition untracked_config (threshold : Z) : config :=
  createConfig (options_with (Some accepting_sink) (Some false)
                             (Some threshold)).

Definition get_users : request := sample_request "GET" "/users" VUndefined.

Definition put_user : request :=
  sample_request "PUT" "/users/1" (VObj None [("password", VStr "p")]).

Definition post_user : request :=
  sample_request "POST" "/users" (VObj None [("name", VStr "n")]).

Definition json_ok : list value := [VObj None [("ok", VBool true)]].

(** An error carrying only the alias [status], as [http-errors] style
    errors built by hand do. *)
Definition unavailable_error : error_obj := sample_error None (Some 503).

Definition bad_request_error : error_obj := sample_error (Some 400) None.

Definition internal_error : error_obj := sample_error (Some 500) None.

Definition card_payload : value :=
  VObj None [("creditCard", VStr "4111 1111 1111 1111");
             ("Password", VStr "p");
             ("owner", VObj None [("CreditCard", VStr "4242 4242 4242 4242");
                                  ("email", VStr "a@b.c")])].

(** ** Notions used to state further properties of the redactor *)

(** The value is the marker ["[REDACTED]"]. *)
Definition is_redacted (v : value) : bool :=
  match v with
  | VStr s => (s =? "[REDACTED]")%string
  | _ => false
  end.

(** The value is a function. *)
Definition is_fun (v : value) : bool :=
  match v with
  | VFun _ => true
  | _ => false
  end.

(** The entry is an own property [toObject] that is a function. *)
Definition own_toObject (kv : string * value) : bool :=
  (fst kv =? "toObject")%string && is_fun (snd kv).

(** No object of the value, at any depth, has a [toObject] to call,
    inherited or own. *)
Fixpoint doc_free (v : value) : bool :=
  match v with
  | VArr l => forallb doc_free l
  | VObj None es =>
      forallb (fun kv => negb (own_toObject kv) && doc_free (snd kv)) es
  | VObj (Some _) _ => false
  | _ => true
  end.

(** No object of the value, at any depth and in what an inherited
    [toObject] returns, has an own property [toObject] that is a
    function. *)
Fixpoint no_own_toObject (v : value) : bool :=
  match v with
  | VArr l => forallb no_own_toObject l
  | VObj inherited es =>
      match inherited with
      | Some plain => no_own_toObject plain
      | None => true
      end
      && forallb (fun kv => negb (own_toObject kv) && no_own_toObject (snd kv))
                 es
  | _ => true
  end.

(** The number of nested [redactObject] frames a walk of the whole value
    takes. *)
Fixpoint nesting (v : value) : nat :=
  match v with
  | VArr l => S (list_max (map nesting l))
  | VObj _ es => S (list_max (map (fun kv => nesting (snd kv)) es))
  | _ => 0
  end.

(** [p] holds of every element of the array with the key of its index,
    [i] being the index of the first one. *)
Definition all_indexed (p : string -> value -> bool)
  : nat -> list value -> bool :=
  fix go i l :=
    match l with
    | [] => true
    | x :: l' => p (index_key i) x && go (S i) l'
    end.

(** At every depth of the value, a key (or array index) whose lower-cased
    form is an entry of [F] holds the marker. *)
Fixpoint masked (F : list string) (v : value) : bool :=
  match v with
  | VArr l =>
      all_indexed (fun k x => if includes F (toLowerCase k) then is_redacted x
                              else masked F x) 0%nat l
  | VObj _ es =>
      forallb (fun kv =>
                 if includes F (toLowerCase (fst kv)) then is_redacted (snd kv)
                 else masked F (snd kv)) es
  | _ => true
  end.

(** The keys are pairwise distinct. *)
Fixpoint nodupb (ks : list string) : bool :=
  match ks with
  | [] => true
  | k :: ks' => negb (includes ks' k) && nodupb ks'
  end.


(** [xs] is what the loop over the array [l] stores, element by element,
    [i] being the index of the first one. *)
Fixpoint arr_entries (rec : value -> result value) (F : list string)
  (i : nat) (l xs : list value) : Prop :=
  match l, xs with
  | [], [] => True
  | v :: l', x :: xs' =>
      redact_entry rec F (index_key i) v = Ok x
      /\ arr_entries rec F (S i) l' xs'
  | _, _ => False
  end.

(** [E] holds of every element of the array with the key of its index,
    [i] being the index of the first one. *)
Fixpoint arr_all (E : string -> value -> Prop) (i : nat) (xs : list value)
  : Prop :=
  match xs with
  | [] => True
  | x :: xs' => E (index_key i) x /\ arr_all E (S i) xs'
  end.

(** ** Notions used to state properties of the payload builder *)

(** The places [findUserInRequest] probes, in its order. *)
Definition userSources (req : request) : list value :=
  [req_user req; prop (req_auth req) "user"; prop (req_session req) "user";
   prop (req_locals req) "user"; prop (req_context req) "user";
   req_currentUser req; req_account req; req_profile req].

(** [source && (source.id || source.email || source.username)], as a
    condition. *)
Definition qualifies (source : value) : bool :=
  truthy source
  && truthy (js_or (js_or (prop source "id") (prop source "email"))
                   (prop source "username")).

Definition sample_document : value :=
  VObj (Some (VObj None [("name", VStr "n"); ("password", VStr "p")]))
       [("$__", VObj None [("secret", VStr "internal")]);
        ("_doc", VObj None [("name", VStr "n"); ("password", VStr "p")])].

(** A request whose [req.user] carries no identity field and whose session
    holds a user that does. *)
Definition session_request : request :=
  {| req_method := "GET";
     req_path := "/me";
     req_url := VStr "/me";
     req_ip := VStr "127.0.0.1";
     req_userAgent := VUndefined;
     req_id := VStr "id-1";
     req_x_request_id := VUndefined;
     req_user := VObj None [("isAdmin", VBool true)];
     req_auth := VNull;
     req_session := VObj None [("id", VStr "s1");
                               ("user", VObj None [("username", VStr "u")])];
     req_locals := VUndefined;
     req_context := VUndefined;
     req_currentUser := VUndefined;
     req_account := VObj None [("id", VNum 9)];
     req_profile := VUndefined;
     req_admin := VUndefined;
     req_query := VObj None [];
     req_params := VObj None [];
     req_body := VUndefined |}.

(** A configuration whose context hook returns a [tenant] and replaces
    [path]. *)
Definition hooked_config : config :=
  createConfig
    {| opt_logstyxInstance := Some accepting_sink;
       opt_redactFields := None;
       opt_buildRequestPayload := None;
       opt_contextHook :=
         Some (fun req => Ok (VObj None [("tenant", VStr "acme");
                                          ("path", VStr "/masked");
                                          ("message", VStr "from hook")]));
       opt_trackPerformance := None;
       opt_slowRequestThreshold := None;
       opt_logLevels := None |}.

(** A configuration whose payload builder throws. *)
Definition throwing_builder_config : config :=
  createConfig
    {| opt_logstyxInstance := Some accepting_sink;
       opt_redactFields := None;
       opt_buildRequestPayload :=
         Some (fun req => Throw (Thrown (VStr "builder failed")));
       opt_contextHook := None;
       opt_trackPerformance := None;
       opt_slowRequestThreshold := None;
       opt_logLevels := None |}.

(** A request whose only user-like value has no identity field. *)
Definition guest_request : request :=
  {| req_method := "GET";
     req_path := "/x";
     req_url := VStr "/x";
     req_ip := VStr "127.0.0.1";
     req_userAgent := VStr "curl/8";
     req_id := VUndefined;
     req_x_request_id := VStr "r-1";
     req_user := VObj None [("role", VStr "guest")];
     req_auth := VUndefined;
     req_session := VUndefined;
     req_locals := VUndefined;
     req_context := VUndefined;
     req_currentUser := VUndefined;
     req_account := VUndefined;
     req_profile := VUndefined;
     req_admin := VUndefined;
     req_query := VObj None [];
     req_params := VObj None [];
     req_body := VNull |}.

(** A document like those of an ORM, but whose plain form carries its own
    [toObject] function. *)
Definition nested_toObject : value :=
  VObj None
    [("toObject",
      VFun (VObj None
              [("a", VNum 1);
               ("toObject", VFun (VObj None [("b", VNum 2)]))]))].

(** * Properties *)

Local Open Scope list_scope.

(** ** Redactor *)

Example redactObject_nested :
  redactObject
    (VObj None [("user", VObj None [("Password", VStr "x"); ("age", VNum 3)]);
                ("list", VArr [VNum 1; VObj None [("token", VStr "t")]])])
    ["password"; "token"]
  = Ok (VObj None [("user", VObj None [("Password", REDACTED); ("age", VNum 3)]);
                   ("list", VArr [VNum 1; VObj None [("token", REDACTED)]])]).
Proof. reflexivity. Qed.

Lemma rbind_Ok {A B} (r : result A) (k : A -> result B) (b : B) :
  rbind r k = Ok b -> exists a, r = Ok a /\ k a = Ok b.
Proof.
  destruct r as [a|e]; simpl; intros H; [eauto | discriminate].
Qed.

Lemma rbind_Ok_l {A B} (a : A) (k : A -> result B) : rbind (Ok a) k = k a.
Proof. reflexivity. Qed.

Lemma obj_set_fresh o k v :
  ~ In k (map fst o) -> obj_set o k v = o ++ [(k, v)].
Proof.
  induction o as [|[k' v'] o IH]; simpl; intros Hk; [reflexivity|].
  destruct (String.eqb_spec k' k) as [->|_].
  - exfalso; apply Hk; now left.
  - rewrite IH; [reflexivity | intros Hin; apply Hk; now right].
Qed.

Lemma obj_set_keys o k v :
  map fst (obj_set o k v)
  = if in_dec string_dec k (map fst o) then map fst o else map fst o ++ [k].
Proof.
  induction o as [|[k' v'] o IH]; simpl; [reflexivity|].
  destruct (String.eqb_spec k' k) as [Heq|Hne]; simpl.
  - subst k'. destruct (string_dec k k) as [E|C]; [reflexivity | now destruct C].
  - rewrite IH.
    destruct (string_dec k' k) as [C|C]; [now destruct Hne|].
    now destruct (in_dec string_dec k (map fst o)).
Qed.

Lemma obj_set_In o k v kx :
  In kx (obj_set o k v) -> In kx o \/ kx = (k, v).
Proof.
  induction o as [|[k' v'] o IH]; simpl.
  - intros [<-|[]]; now right.
  - destruct (String.eqb_spec k' k) as [->|_]; simpl.
    + intros [<-|H]; [now right | left; now right].
    + intros [<-|H]; [left; now left|].
      destruct (IH H) as [H'|H']; [left; now right | now right].
Qed.

Lemma obj_set_NoDup o k v :
  NoDup (map fst o) -> NoDup (map fst (obj_set o k v)).
Proof.
  intros Hnd. rewrite obj_set_keys.
  destruct (in_dec string_dec k (map fst o)) as [Hin|Hnin]; [assumption|].
  apply NoDup_app; [assumption | repeat constructor; intros [] | ].
  intros a Ha [<-|[]]. contradiction.
Qed.

Lemma obj_get_set o k v k' :
  obj_get (obj_set o k v) k' = if (k =? k')%string then v else obj_get o k'.
Proof.
  induction o as [|[k0 v0] o IH]; simpl.
  - reflexivity.
  - destruct (String.eqb_spec k0 k) as [Heq|Hne]; simpl.
    + subst k0. now destruct (k =? k')%string.
    + rewrite IH. destruct (String.eqb_spec k0 k') as [Heq'|Hne'].
      * subst k0. destruct (String.eqb_spec k k') as [C|C];
          [now destruct Hne | reflexivity].
      * reflexivity.
Qed.

Lemma arr_set_end a v : arr_set a (List.length a) v = a ++ [v].
Proof.
  induction a as [|x a IH]; simpl; [reflexivity | now rewrite IH].
Qed.

Lemma includes_In F s : includes F s = true <-> In s F.
Proof.
  unfold includes. rewrite existsb_exists. split.
  - intros (x & Hx & He). apply String.eqb_eq in He. now subst.
  - intros H. exists s. split; [exact H | apply String.eqb_refl].
Qed.

Lemma nodupb_NoDup ks : nodupb ks = true -> NoDup ks.
Proof.
  induction ks as [|k ks IH]; simpl; intros H; constructor.
  - apply andb_prop in H as [H _]. intros Hin.
    apply includes_In in Hin. now rewrite Hin in H.
  - apply andb_prop in H as [_ H]. now apply IH.
Qed.

(** *** Assignment to the object under construction *)

Lemma assign_proto out x :
  snd (assign out "__proto__" x) = snd out.
Proof. unfold assign. simpl. now destruct x. Qed.

Lemma assign_other out k x :
  k <> "__proto__" ->
  assign out k x = (fst out, obj_set (snd out) k x).
Proof.
  intros Hk. unfold assign. apply String.eqb_neq in Hk. now rewrite Hk.
Qed.

Lemma assign_In out k x kx :
  In kx (snd (assign out k x)) ->
  In kx (snd out) \/ (kx = (k, x) /\ k <> "__proto__").
Proof.
  destruct (String.eqb_spec k "__proto__") as [->|Hk].
  - rewrite assign_proto. now left.
  - rewrite (assign_other _ _ _ Hk). simpl. intros H.
    destruct (obj_set_In _ _ _ _ H); [now left | now right].
Qed.

Lemma assign_NoDup out k x :
  NoDup (map fst (snd out)) -> NoDup (map fst (snd (assign out k x))).
Proof.
  destruct (String.eqb_spec k "__proto__") as [->|Hk].
  - now rewrite assign_proto.
  - rewrite (assign_other _ _ _ Hk). simpl. apply obj_set_NoDup.
Qed.

Lemma assign_fst_None out k x :
  fst out = None -> toObject_of x = None -> fst (assign out k x) = None.
Proof.
  intros Ho Hx. unfold assign.
  destruct (k =? "__proto__")%string; [|exact Ho].
  destruct x; simpl; auto.
Qed.

(** *** The two loops *)

(** What holds of the object under construction at the start, and is kept
    by every assignment of a stored value, holds of the object built. *)
Lemma walk_obj_invariant
    (I : option value * list (string * value) -> Prop) rec F es :
  Forall (fun kv => forall x acc,
              redact_entry rec F (fst kv) (snd kv) = Ok x ->
              I acc -> I (assign acc (fst kv) x)) es ->
  forall acc out, I acc -> walk_obj rec F es acc = Ok out -> I out.
Proof.
  induction 1 as [|[k v] es Hv _ IH]; simpl; intros acc out Hacc Hw.
  - now injection Hw as <-.
  - destruct (redact_entry rec F k v) as [x|e] eqn:Hx; [|discriminate].
    apply (IH (assign acc k x) out); [|exact Hw]. now apply Hv.
Qed.

(** A property of entries that every stored value has is had by every
    entry of the mapping the loop builds. *)
Lemma walk_obj_Forall (Q : string * value -> Prop) rec F es :
  Forall (fun kv => forall x, redact_entry rec F (fst kv) (snd kv) = Ok x ->
                              Q (fst kv, x)) es ->
  forall acc out,
    Forall Q (snd acc) -> walk_obj rec F es acc = Ok out -> Forall Q (snd out).
Proof.
  intros Hes.
  apply (walk_obj_invariant (fun acc => Forall Q (snd acc))).
  eapply Forall_impl; [|exact Hes].
  intros [k v] Hv x acc Hx Hacc. simpl in *.
  apply Forall_forall. intros kx Hin.
  destruct (assign_In _ _ _ _ Hin) as [Hold|[-> _]].
  - rewrite Forall_forall in Hacc. now apply Hacc.
  - now apply Hv.
Qed.

(** The loop over an array appends one stored value per element. *)
Lemma walk_arr_entries rec F l :
  forall acc out,
    walk_arr rec F (List.length acc) l acc = Ok out ->
    exists xs, out = acc ++ xs /\ arr_entries rec F (List.length acc) l xs.
Proof.
  induction l as [|v l IH]; simpl; intros acc out Hw.
  - injection Hw as <-. exists []. now rewrite app_nil_r.
  - destruct (redact_entry rec F (index_key (List.length acc)) v)
      as [x|e] eqn:Hx; [|discriminate].
    rewrite arr_set_end in Hw.
    replace (S (List.length acc)) with (List.length (acc ++ [x])) in Hw
      by (rewrite length_app; simpl; lia).
    destruct (IH _ _ Hw) as (xs & -> & Hxs).
    exists (x :: xs). split; [now rewrite <- app_assoc|].
    split; [first [exact Hx | reflexivity]|].
    replace (S (List.length acc)) with (List.length (acc ++ [x]))
      by (rewrite length_app; simpl; lia).
    exact Hxs.
Qed.

Lemma arr_entries_walk rec F l :
  forall xs acc,
    arr_entries rec F (List.length acc) l xs ->
    walk_arr rec F (List.length acc) l acc = Ok (acc ++ xs).
Proof.
  induction l as [|v l IH]; intros [|x xs] acc H; simpl in *; try contradiction.
  - now rewrite app_nil_r.
  - destruct H as [Hx Hxs]. rewrite Hx, arr_set_end.
    replace (S (List.length acc)) with (List.length (acc ++ [x])) in *
      by (rewrite length_app; simpl; lia).
    rewrite (IH xs (acc ++ [x]) Hxs). now rewrite <- app_assoc.
Qed.

Lemma arr_entries_length rec F l :
  forall i xs, arr_entries rec F i l xs -> List.length xs = List.length l.
Proof.
  induction l as [|v l IH]; intros i [|x xs] H; simpl in *;
    try contradiction; [reflexivity|].
  destruct H as [_ H]. now rewrite (IH _ _ H).
Qed.

Lemma walk_arr_result rec F l out :
  walk_arr rec F 0 l [] = Ok out -> arr_entries rec F 0 l out.
Proof.
  intros Hw. destruct (walk_arr_entries rec F l [] out Hw) as (xs & -> & Hxs).
  exact Hxs.
Qed.

Lemma string_entries_plain i s :
  Forall (fun kv : string * value => is_object (snd kv) = false)
         (string_entries i s).
Proof.
  revert i. induction s as [|c s IH]; simpl; intros i; constructor;
    [reflexivity | apply IH].
Qed.

(** *** One frame of [redactObject] *)

Lemma redact_in_primitive n x F :
  is_object x = false -> redact_in (S n) x F = Ok x.
Proof. intros H. simpl. now rewrite H. Qed.

Lemma redact_in_S n x F :
  redact_in (S n) x F
  = if negb (is_object x) then Ok x
    else match walked x with
         | VUndefined | VNull =>
             Throw (TypeError "Cannot convert undefined or null to object")
         | VArr l => as_arr (walk_arr (fun v => redact_in n v F) F 0 l [])
         | o =>
             as_obj (walk_obj (fun v => redact_in n v F) F (entries o)
                       (None, []))
         end.
Proof. reflexivity. Qed.

(** What one frame returns: the value itself when it is not an object,
    and otherwise an array or a mapping built by the loop over the entries
    of the walked value, with one frame less for the nested calls. *)
Lemma redact_in_frame n x F y :
  redact_in (S n) x F = Ok y ->
  (is_object x = false /\ y = x)
  \/
  (is_object x = true /\
   ((exists l xs,
        walked x = VArr l /\ y = VArr xs /\
        arr_entries (fun v => redact_in n v F) F 0 l xs)
    \/
    (exists out,
        (forall l, walked x <> VArr l) /\
        y = VObj (fst out) (snd out) /\
        walk_obj (fun v => redact_in n v F) F (entries (walked x)) (None, [])
        = Ok out))).
Proof.
  rewrite redact_in_S. destruct (is_object x) eqn:Hobj; simpl negb; cbv iota.
  - intros H. right. split; [reflexivity|].
    destruct (walked x) as [ | | b | k | | s | r | l | t es] eqn:Hw;
      try discriminate;
      try (right; unfold as_obj in H;
           apply rbind_Ok in H as (out & Hout & [= <-]);
           exists out; repeat split; [discriminate | exact Hout]).
    left. unfold as_arr in H. apply rbind_Ok in H as (out & Hout & [= <-]).
    exists l, out. repeat split. now apply walk_arr_result.
  - intros [= <-]. now left.
Qed.

Lemma redact_in_object n x F y :
  is_object x = true -> redact_in n x F = Ok y -> is_object y = true.
Proof.
  destruct n as [|n]; [discriminate|]. intros Hobj H.
  destruct (redact_in_frame n x F y H)
    as [[C _]|[_ [(l & xs & _ & -> & _)|(out & _ & -> & _)]]];
    [congruence | reflexivity | reflexivity].
Qed.

Lemma redact_in_array n x F l :
  is_object x = true -> walked x = VArr l ->
  redact_in (S n) x F = as_arr (walk_arr (fun v => redact_in n v F) F 0 l []).
Proof. intros Ho Hw. rewrite redact_in_S, Ho, Hw. reflexivity. Qed.

Lemma redact_in_mapping n x F t es :
  is_object x = true -> walked x = VObj t es ->
  redact_in (S n) x F
  = as_obj (walk_obj (fun v => redact_in n v F) F es (None, [])).
Proof. intros Ho Hw. rewrite redact_in_S, Ho, Hw. reflexivity. Qed.

(** *** Every key with a matching name is masked *)

Section walk_results.
Variable F : list string.
Variable Good : value -> Prop.
Variable E : string -> value -> Prop.
Hypothesis E_marker :
  forall k, includes F (toLowerCase k) = true -> E k REDACTED.
Hypothesis E_value :
  forall k x, includes F (toLowerCase k) = false -> Good x -> E k x.
Hypothesis Good_primitive : forall v, is_object v = false -> Good v.
Hypothesis Good_array : forall xs, arr_all E 0 xs -> Good (VArr xs).
Hypothesis Good_mapping :
  forall proto out, Forall (fun kx => E (fst kx) (snd kx)) out ->
                    Good (VObj proto out).

Lemma redact_entry_Good rec k v x :
  (is_object v = true -> forall y, rec v = Ok y -> Good y) ->
  redact_entry rec F k v = Ok x -> E k x.
Proof.
  unfold redact_entry. intros Hv.
  destruct (includes F (toLowerCase k)) eqn:Hk;
    [intros [= <-]; now apply E_marker|].
  intros Hx. apply E_value; [exact Hk|].
  destruct (is_object v) eqn:Hobj; [now apply Hv|].
  injection Hx as <-. now apply Good_primitive.
Qed.

Lemma arr_entries_Good rec l :
  (forall v y, rec v = Ok y -> Good y) ->
  forall i xs, arr_entries rec F i l xs -> arr_all E i xs.
Proof.
  intros Hrec. induction l as [|v l IH]; intros i [|x xs] H; simpl in H;
    try contradiction; simpl; [exact I|]. split.
  - apply (redact_entry_Good rec _ v x); [|exact (proj1 H)].
    intros _. apply Hrec.
  - exact (IH _ _ (proj2 H)).
Qed.

(** A property that primitive values have, and that arrays and mappings
    have as soon as each of their entries holds the marker under a matching
    key and a value with the property under another key, is had by the
    result of a redaction. *)
Lemma redact_in_Good n : forall x y, redact_in n x F = Ok y -> Good y.
Proof.
  induction n as [|n IH]; intros x y H; [discriminate|].
  destruct (redact_in_frame n x F y H)
    as [[Hp ->]|[_ [(l & xs & _ & -> & Hxs)|(out & _ & -> & Hw)]]].
  - now apply Good_primitive.
  - apply Good_array. exact (arr_entries_Good _ l IH _ _ Hxs).
  - apply Good_mapping.
    refine (walk_obj_Forall (fun kx => E (fst kx) (snd kx)) _ F _ _ (None, [])
              out (Forall_nil _) Hw).
    apply Forall_forall. intros [k v] _ x' Hx'.
    apply (redact_entry_Good (fun v => redact_in n v F) k v x'); [|exact Hx'].
    intros _. apply IH.
Qed.
End walk_results.

Lemma arr_all_all_indexed (p : string -> value -> bool) xs :
  forall i, arr_all (fun k x => p k x = true) i xs ->
            all_indexed p i xs = true.
Proof.
  induction xs as [|x xs IH]; simpl; intros i H; [reflexivity|].
  destruct H as [Hx H]. now rewrite Hx, (IH _ H).
Qed.

Lemma plain_is_masked F v : is_object v = false -> masked F v = true.
Proof. now destruct v. Qed.

(** Redaction at every depth: in the result of a redaction, every key of
    every mapping, and every index of every array, whose lower-cased form
    is an entry of the field list holds ["[REDACTED]"]. *)
Theorem redactObject_masks_every_depth x F y :
  redactObject x F = Ok y -> masked F y = true.
Proof.
  apply (redact_in_Good F (fun y => masked F y = true)
           (fun k x => (if includes F (toLowerCase k) then is_redacted x
                        else masked F x) = true)).
  - intros k Hk. now rewrite Hk.
  - intros k v Hk Hv. now rewrite Hk.
  - apply plain_is_masked.
  - intros xs H. simpl. now apply arr_all_all_indexed.
  - intros proto out H. simpl. apply forallb_forall.
    rewrite Forall_forall in H. exact H.
Qed.

Lemma redactObject_masks_every_depth_witness :
  redactObject card_payload ["creditcard"; "email"] 
  = Ok (VObj None
          [("creditCard", REDACTED);
           ("Password", VStr "p");
           ("owner", VObj None [("CreditCard", REDACTED);
                                ("email", REDACTED)])])
  /\ masked ["creditcard"; "email"]
        (VObj None
           [("creditCard", REDACTED);
            ("Password", VStr "p");
            ("owner", VObj None [("CreditCard", REDACTED);
                                 ("email", REDACTED)])]) = true.
Proof.
  split; [reflexivity|].
  apply (redactObject_masks_every_depth card_payload ["creditcard"; "email"]).
  reflexivity.
Defined.

(** C4.  The code on a payload with credit-card fields and the default
    field list, whose entry for them is written [creditCard]: the keys
    match that entry without regard to case, yet their values come out in
    clear, beside a [Password] and an [email] that are masked. *)
Theorem creditCard_is_not_redacted :
  includes (map toLowerCase default_redactFields) (toLowerCase "creditCard")
  = true /\
  includes default_redactFields (toLowerCase "creditCard") = false /\
  redactObject card_payload default_redactFields
  = Ok (VObj None
          [("creditCard", VStr "4111 1111 1111 1111");
           ("Password", REDACTED);
           ("owner", VObj None [("CreditCard", VStr "4242 4242 4242 4242");
                                ("email", REDACTED)])]).
Proof. repeat split. Qed.

(** *** Redacting twice *)

Lemma own_prop_not_fun es :
  Forall (fun kv => own_toObject kv = false) es ->
  forall r, own_prop es "toObject" <> Some (VFun r).
Proof.
  induction 1 as [|[k v] es Hkv _ IH]; simpl; intros r; [discriminate|].
  destruct (String.eqb_spec k "toObject") as [->|_]; [|apply IH].
  unfold own_toObject in Hkv. simpl in Hkv.
  intros [= ->]. discriminate.
Qed.

Lemma toObject_of_no_own t es :
  Forall (fun kv => own_toObject kv = false) es ->
  toObject_of (VObj t es) = t \/ toObject_of (VObj t es) = None.
Proof.
  intros H. unfold toObject_of.
  destruct (own_prop es "toObject") as [[ | | | | | | r | | ]|] eqn:Ho; auto.
  destruct (own_prop_not_fun es H r Ho).
Qed.

Lemma doc_free_toObject_of x : doc_free x = true -> toObject_of x = None.
Proof.
  destruct x as [ | | | | | | | |[plain|] es]; try reflexivity;
    [discriminate|].
  intros H. simpl in H. rewrite forallb_forall in H.
  destruct (toObject_of_no_own None es) as [Ht|Ht]; try exact Ht.
  apply Forall_forall. intros kv Hin. specialize (H kv Hin).
  apply andb_prop in H as [H _]. now apply negb_true_iff in H.
Qed.

Lemma doc_free_primitive v : is_object v = false -> doc_free v = true.
Proof. now destruct v. Qed.

Lemma no_own_toObject_walked x :
  no_own_toObject x = true -> no_own_toObject (walked x) = true.
Proof.
  intros H. unfold walked.
  destruct x as [ | | | | | | | |t es]; try exact H.
  simpl in H. apply andb_prop in H as [Ht Hes].
  assert (Hno : Forall (fun kv => own_toObject kv = false) es).
  { rewrite forallb_forall in Hes. apply Forall_forall. intros kv Hin.
    specialize (Hes kv Hin). apply andb_prop in Hes as [Hes _].
    now apply negb_true_iff in Hes. }
  destruct (toObject_of_no_own t es Hno) as [-> | ->].
  - destruct t as [plain|]; [exact Ht|]. simpl. now rewrite Hes.
  - simpl. now rewrite Ht, Hes.
Qed.

Lemma no_own_toObject_entries o :
  no_own_toObject o = true -> (forall l, o <> VArr l) ->
  Forall (fun kv => own_toObject kv = false
                    /\ no_own_toObject (snd kv) = true) (entries o).
Proof.
  intros H Harr.
  destruct o as [ | | | | |s| |l|t es]; try (simpl; constructor).
  - simpl. clear H Harr. generalize 0%nat.
    induction s as [|c s IH]; simpl; intros i; constructor; auto.
    split; [|reflexivity]. unfold own_toObject. simpl. apply andb_false_r.
  - destruct (Harr l eq_refl).
  - simpl in *. apply andb_prop in H as [_ H]. rewrite forallb_forall in H.
    apply Forall_forall. intros kv Hin. specialize (H kv Hin).
    apply andb_prop in H as [H1 H2]. apply negb_true_iff in H1. now split.
Qed.

Section settling.
Variable F : list string.
Variable rec : value -> result value.
Hypothesis rec_settles :
  forall v y, no_own_toObject v = true -> rec v = Ok y ->
              doc_free y = true /\ rec y = Ok y.
Hypothesis rec_object :
  forall v y, is_object v = true -> rec v = Ok y -> is_object y = true.

(** What the loop stores for an entry is free of documents, is stored
    again as it is by a second pass, and is a function only if the entry
    held that function. *)
Lemma redact_entry_settles k v x :
  no_own_toObject v = true ->
  redact_entry rec F k v = Ok x ->
  doc_free x = true
  /\ redact_entry rec F k x = Ok x
  /\ (is_fun x = true -> x = v).
Proof.
  unfold redact_entry. intros Hv.
  destruct (includes F (toLowerCase k)) eqn:Hk.
  - intros [= <-]. repeat split. discriminate.
  - destruct (is_object v) eqn:Hobj.
    + intros Hx. destruct (rec_settles v x Hv Hx) as [Hd Hs].
      assert (Ho := rec_object v x Hobj Hx). rewrite Ho.
      repeat split; auto. destruct x; discriminate.
    + intros [= <-]. rewrite Hobj. repeat split.
      now apply doc_free_primitive.
Qed.

Lemma arr_entries_settle l :
  Forall (fun v => no_own_toObject v = true) l ->
  forall i xs,
    arr_entries rec F i l xs ->
    forallb doc_free xs = true /\ arr_entries rec F i xs xs.
Proof.
  induction 1 as [|v l Hv _ IH]; intros i [|x xs] H; simpl in H;
    try contradiction; [now split|].
  destruct H as [Hx Hxs].
  destruct (redact_entry_settles _ v x Hv Hx) as (Hd & Hs & _).
  destruct (IH _ _ Hxs) as [Hds Hss]. simpl. rewrite Hd, Hds. now split.
Qed.

Lemma walk_obj_settled o :
  Forall (fun kx => fst kx <> "__proto__"
                    /\ redact_entry rec F (fst kx) (snd kx) = Ok (snd kx)) o ->
  forall acc,
    NoDup (map fst (snd acc ++ o)) ->
    walk_obj rec F o acc = Ok (fst acc, snd acc ++ o).
Proof.
  induction 1 as [|[k x] o [Hk Hkx] _ IH]; simpl; intros acc Hnd.
  - rewrite app_nil_r. now destruct acc.
  - simpl in Hk, Hkx. rewrite Hkx, (assign_other _ _ _ Hk).
    rewrite IH; simpl.
    + rewrite obj_set_fresh; [now rewrite <- app_assoc|].
      rewrite map_app in Hnd. simpl in Hnd.
      apply NoDup_remove_2 in Hnd. intros Hin. apply Hnd.
      apply in_or_app. now left.
    + rewrite obj_set_fresh; [now rewrite <- app_assoc|].
      rewrite map_app in Hnd. simpl in Hnd.
      apply NoDup_remove_2 in Hnd. intros Hin. apply Hnd.
      apply in_or_app. now left.
Qed.

(** The mapping the loop builds from entries free of own [toObject]
    functions: no inherited [toObject], distinct keys, none of them
    [__proto__], and every entry settled. *)
Lemma walk_obj_settles es out :
  Forall (fun kv => own_toObject kv = false
                    /\ no_own_toObject (snd kv) = true) es ->
  walk_obj rec F es (None, []) = Ok out ->
  fst out = None
  /\ NoDup (map fst (snd out))
  /\ Forall (fun kx => fst kx <> "__proto__"
                       /\ own_toObject kx = false
                       /\ doc_free (snd kx) = true
                       /\ redact_entry rec F (fst kx) (snd kx) = Ok (snd kx))
            (snd out).
Proof.
  intros Hes.
  apply (walk_obj_invariant
           (fun acc =>
              fst acc = None
              /\ NoDup (map fst (snd acc))
              /\ Forall (fun kx => fst kx <> "__proto__"
                                   /\ own_toObject kx = false
                                   /\ doc_free (snd kx) = true
                                   /\ redact_entry rec F (fst kx) (snd kx)
                                      = Ok (snd kx))
                        (snd acc))).
  - eapply Forall_impl; [|exact Hes].
    intros [k v] [Hown Hv] x acc Hx (Hf & Hnd & Hall). simpl in *.
    destruct (redact_entry_settles k v x Hv Hx) as (Hd & Hs & Hfun).
    split; [apply assign_fst_None; [exact Hf | now apply doc_free_toObject_of]|].
    split; [now apply assign_NoDup|].
    apply Forall_forall. intros kx Hin.
    destruct (assign_In _ _ _ _ Hin) as [Hold|[-> Hk]].
    + rewrite Forall_forall in Hall. now apply Hall.
    + simpl. repeat split; auto.
      unfold own_toObject in *. simpl in *.
      destruct (is_fun x) eqn:Hfx; [|apply andb_false_r].
      rewrite andb_true_r. specialize (Hfun eq_refl). subst v.
      rewrite Hfx, andb_true_r in Hown. exact Hown.
  - simpl. repeat split; constructor.
Qed.
End settling.

(** The result of redacting a value free of own [toObject] functions has
    no [toObject] to call at any depth, and redacting it again, with the
    same stack, returns it. *)
Lemma redact_in_settles F n :
  forall x y,
    no_own_toObject x = true -> redact_in n x F = Ok y ->
    doc_free y = true /\ redact_in n y F = Ok y.
Proof.
  induction n as [|n IH]; intros x y Hx H; [discriminate|].
  assert (Hobj : forall v y0, is_object v = true -> redact_in n v F = Ok y0 ->
                               is_object y0 = true)
    by (intros v y0; apply redact_in_object).
  assert (Hwx := no_own_toObject_walked x Hx).
  destruct (redact_in_frame n x F y H)
    as [[Hp ->]|[_ [(l & xs & Hw & -> & Hxs)|(out & Harr & -> & Hw)]]].
  - split; [now apply doc_free_primitive | now apply redact_in_primitive].
  - rewrite Hw in Hwx. simpl in Hwx. rewrite forallb_forall in Hwx.
    destruct (arr_entries_settle F _ IH Hobj l
                ltac:(apply Forall_forall; exact Hwx) _ _ Hxs) as [Hd Hs].
    split; [exact Hd|].
    rewrite (redact_in_array n (VArr xs) F xs eq_refl eq_refl).
    assert (Hwalk := arr_entries_walk _ F xs xs [] Hs). simpl in Hwalk.
    now rewrite Hwalk.
  - destruct (walk_obj_settles F _ IH Hobj _ out
                (no_own_toObject_entries _ Hwx Harr) Hw)
      as (Hf & Hnd & Hall).
    rewrite Hf.
    assert (Hd : doc_free (VObj None (snd out)) = true).
    { simpl. apply forallb_forall. rewrite Forall_forall in Hall.
      intros kx Hin. destruct (Hall kx Hin) as (_ & Ho & Hdf & _).
      now rewrite Ho, Hdf. }
    split; [exact Hd|].
    assert (Hwy : walked (VObj None (snd out)) = VObj None (snd out)).
    { unfold walked. now rewrite (doc_free_toObject_of _ Hd). }
    rewrite (redact_in_mapping n (VObj None (snd out)) F None (snd out)
               eq_refl Hwy).
    rewrite (walk_obj_settled F _ (snd out)); simpl; [reflexivity| |exact Hnd].
    eapply Forall_impl; [|exact Hall]. intros kx (H1 & _ & _ & H4). now split.
Qed.

(** C7, as amended.  Redaction idempotence: for every value none of whose
    objects, at any depth or in what an inherited [toObject] returns, has
    an own property [toObject] that is a function, and every field list,
    redacting the result of a redaction returns it unchanged,
    [redact(redact(x, F), F) = redact(x, F)]; when the first redaction
    throws, so does the composition, with the same exception. *)
Theorem redactObject_idempotent (x : value) (F : list string) :
  no_own_toObject x = true ->
  rbind (redactObject x F) (fun y => redactObject y F) = redactObject x F.
Proof.
  intros Hx. unfold redactObject. generalize stack_limit. intros n.
  destruct (redact_in n x F) as [y|e] eqn:Hy; [|reflexivity].
  exact (proj2 (redact_in_settles F n x y Hx Hy)).
Qed.

Lemma redactObject_idempotent_witness :
  no_own_toObject (VArr [sample_document; card_payload]) = true /\
  rbind (redactObject (VArr [sample_document; card_payload]) ["password"])
        (fun y => redactObject y ["password"])
  = redactObject (VArr [sample_document; card_payload]) ["password"].
Proof.
  split; [reflexivity|].
  apply (redactObject_idempotent (VArr [sample_document; card_payload])
           ["password"]).
  reflexivity.
Defined.

(** C7, as stated, fails: when what [toObject] returns carries its own
    [toObject] function, the first redaction returns [{a: 1, toObject}],
    the function being copied as any value that is not an object, and the
    second redaction calls it and returns [{b: 2}]. *)
Lemma redactObject_twice_differs :
  redactObject nested_toObject []
  = Ok (VObj None [("a", VNum 1);
                   ("toObject", VFun (VObj None [("b", VNum 2)]))])
  /\ rbind (redactObject nested_toObject []) (fun y => redactObject y [])
     = Ok (VObj None [("b", VNum 2)])
  /\ rbind (redactObject nested_toObject []) (fun y => redactObject y [])
     <> redactObject nested_toObject [].
Proof. repeat split. discriminate. Qed.

(** No document survives the redaction of a value free of own [toObject]
    functions: the result has no [toObject] to call, inherited or own, at
    any depth. *)
Theorem redactObject_output_doc_free x F y :
  no_own_toObject x = true ->
  redactObject x F = Ok y -> doc_free y = true.
Proof.
  unfold redactObject. generalize stack_limit. intros n Hx Hy.
  exact (proj1 (redact_in_settles F n x y Hx Hy)).
Qed.

Lemma redactObject_output_doc_free_witness :
  no_own_toObject (VArr [sample_document; VNum 1]) = true /\
  redactObject (VArr [sample_document; VNum 1]) ["password"]
  = Ok (VArr [VObj None [("name", VStr "n"); ("password", REDACTED)]; VNum 1])
  /\ doc_free (VArr [VObj None [("name", VStr "n"); ("password", REDACTED)];
                     VNum 1]) = true.
Proof.
  split; [reflexivity | split; [reflexivity|]].
  apply (redactObject_output_doc_free (VArr [sample_document; VNum 1])
           ["password"]); reflexivity.
Defined.

(** *** A deeper stack returns the same value *)

Lemma redact_entry_mono (rec rec' : value -> result value) F k v x :
  (forall v y, rec v = Ok y -> rec' v = Ok y) ->
  redact_entry rec F k v = Ok x -> redact_entry rec' F k v = Ok x.
Proof.
  intros Hrec. unfold redact_entry.
  destruct (includes F (toLowerCase k)); [auto|].
  destruct (is_object v); auto.
Qed.

Lemma walk_obj_mono (rec rec' : value -> result value) F :
  (forall v y, rec v = Ok y -> rec' v = Ok y) ->
  forall es acc out,
    walk_obj rec F es acc = Ok out -> walk_obj rec' F es acc = Ok out.
Proof.
  intros Hrec. induction es as [|[k v] es IH]; simpl; intros acc out H;
    [exact H|].
  destruct (redact_entry rec F k v) as [x|e] eqn:Hx; [|discriminate].
  rewrite (redact_entry_mono rec rec' F k v x Hrec Hx). now apply IH.
Qed.

Lemma walk_arr_mono (rec rec' : value -> result value) F :
  (forall v y, rec v = Ok y -> rec' v = Ok y) ->
  forall l i acc out,
    walk_arr rec F i l acc = Ok out -> walk_arr rec' F i l acc = Ok out.
Proof.
  intros Hrec. induction l as [|v l IH]; simpl; intros i acc out H;
    [exact H|].
  destruct (redact_entry rec F (index_key i) v) as [x|e] eqn:Hx;
    [|discriminate].
  rewrite (redact_entry_mono rec rec' F _ v x Hrec Hx). now apply IH.
Qed.

(** What [redactObject] returns does not depend on the room left on the
    stack, once there is enough of it. *)
Lemma redact_in_mono F n :
  forall m x y, (n <= m)%nat -> redact_in n x F = Ok y ->
                redact_in m x F = Ok y.
Proof.
  induction n as [|n IH]; intros m x y Hle H; [discriminate|].
  destruct m as [|m]; [lia|].
  assert (Hrec : forall v y0, redact_in n v F = Ok y0 ->
                              redact_in m v F = Ok y0)
    by (intros v y0; apply IH; lia).
  rewrite redact_in_S in *.
  destruct (negb (is_object x)); [exact H|].
  destruct (walked x) as [ | | b | k | | s | r | l | t es]; try discriminate;
    try (unfold as_obj in *; apply rbind_Ok in H as (out & Hout & Hy);
         now rewrite (walk_obj_mono _ _ F Hrec _ _ _ Hout)).
  unfold as_arr in *. apply rbind_Ok in H as (out & Hout & Hy).
  now rewrite (walk_arr_mono _ _ F Hrec _ _ _ _ Hout).
Qed.

(** *** Returning, and the only ways to throw *)

Lemma is_object_nesting v : is_object v = true -> (0 < nesting v)%nat.
Proof. destruct v; simpl; try discriminate; lia. Qed.

Lemma nesting_element v l :
  In v l -> (nesting v <= list_max (map nesting l))%nat.
Proof.
  intros Hin.
  assert (H := proj1 (list_max_le (map nesting l) (list_max (map nesting l)))
                 (Nat.le_refl _)).
  rewrite Forall_forall in H. apply H. now apply in_map.
Qed.

Lemma nesting_entry (kv : string * value) es :
  In kv es ->
  (nesting (snd kv) <= list_max (map (fun kv => nesting (snd kv)) es))%nat.
Proof.
  intros Hin.
  assert (H := proj1 (list_max_le (map (fun kv => nesting (snd kv)) es)
                        (list_max (map (fun kv => nesting (snd kv)) es)))
                 (Nat.le_refl _)).
  rewrite Forall_forall in H. apply H.
  now apply (in_map (fun kv => nesting (snd kv))).
Qed.

Lemma walk_obj_returns rec F es :
  Forall (fun kv => is_object (snd kv) = true ->
                    exists y, rec (snd kv) = Ok y) es ->
  forall acc, exists out, walk_obj rec F es acc = Ok out.
Proof.
  induction 1 as [|[k v] es Hv _ IH]; simpl; intros acc; [eauto|].
  simpl in Hv. unfold redact_entry.
  destruct (includes F (toLowerCase k)); [apply IH|].
  destruct (is_object v); [|apply IH].
  destruct (Hv eq_refl) as [y ->]. apply IH.
Qed.

Lemma walk_arr_returns rec F l :
  Forall (fun v => is_object v = true -> exists y, rec v = Ok y) l ->
  forall i acc, exists out, walk_arr rec F i l acc = Ok out.
Proof.
  induction 1 as [|v l Hv _ IH]; simpl; intros i acc; [eauto|].
  unfold redact_entry.
  destruct (includes F (toLowerCase (index_key i))); [apply IH|].
  destruct (is_object v); [|apply IH].
  destruct (Hv eq_refl) as [y ->]. apply IH.
Qed.

Lemma redact_entry_throws rec F k v e :
  redact_entry rec F k v = Throw e -> rec v = Throw e.
Proof.
  unfold redact_entry. destruct (includes F (toLowerCase k)); [discriminate|].
  now destruct (is_object v).
Qed.

Lemma walk_obj_throws rec F e es :
  forall acc,
    walk_obj rec F es acc = Throw e ->
    exists kv, In kv es /\ rec (snd kv) = Throw e.
Proof.
  induction es as [|[k v] es IH]; simpl; intros acc H; [discriminate|].
  destruct (redact_entry rec F k v) as [x|e'] eqn:Hx.
  - destruct (IH _ H) as (kv & Hin & Hkv). exists kv. auto.
  - injection H as ->. exists (k, v). split; [now left|].
    exact (redact_entry_throws _ _ _ _ _ Hx).
Qed.

Lemma walk_arr_throws rec F e l :
  forall i acc,
    walk_arr rec F i l acc = Throw e -> exists v, In v l /\ rec v = Throw e.
Proof.
  induction l as [|v l IH]; simpl; intros i acc H; [discriminate|].
  destruct (redact_entry rec F (index_key i) v) as [x|e'] eqn:Hx.
  - destruct (IH _ _ H) as (v' & Hin & Hv). exists v'. auto.
  - injection H as ->. exists v. split; [now left|].
    exact (redact_entry_throws _ _ _ _ _ Hx).
Qed.

Lemma redact_in_returns F n :
  forall x, doc_free x = true -> (nesting x <= n)%nat -> (0 < n)%nat ->
            exists y, redact_in n x F = Ok y.
Proof.
  induction n as [|n IH]; intros x Hd Hn Hpos; [lia|].
  destruct (is_object x) eqn:Hobj;
    [|exists x; now apply redact_in_primitive].
  assert (Hw : walked x = x)
    by (unfold walked; now rewrite (doc_free_toObject_of x Hd)).
  assert (Hrec : forall v, doc_free v = true -> (nesting v <= n)%nat ->
                           is_object v = true ->
                           exists y, redact_in n v F = Ok y).
  { intros v Hv Hnv Hov. apply IH; auto.
    apply is_object_nesting in Hov. lia. }
  destruct x as [ | | | | | | |l|[plain|] es]; try discriminate.
  - rewrite (redact_in_array n (VArr l) F l eq_refl Hw).
    simpl in Hd, Hn. rewrite forallb_forall in Hd.
    destruct (walk_arr_returns (fun v => redact_in n v F) F l) with
      (i := 0%nat) (acc := @nil value) as [out Hout].
    + apply Forall_forall. intros v Hin. apply Hrec; auto.
      assert (Hle := nesting_element v l Hin). lia.
    + rewrite Hout. simpl. eauto.
  - rewrite (redact_in_mapping n (VObj None es) F None es eq_refl Hw).
    simpl in Hd, Hn. rewrite forallb_forall in Hd.
    destruct (walk_obj_returns (fun v => redact_in n v F) F es) with
      (acc := (@None value, @nil (string * value))) as [out Hout].
    + apply Forall_forall. intros kv Hin. apply Hrec.
      * specialize (Hd kv Hin). now apply andb_prop in Hd as [_ Hd].
      * assert (Hle := nesting_entry kv es Hin). lia.
    + rewrite Hout. simpl. eauto.
Qed.

Lemma redact_in_throws F n :
  forall x e, doc_free x = true -> redact_in n x F = Throw e ->
              e = RangeError "Maximum call stack size exceeded".
Proof.
  induction n as [|n IH]; intros x e Hd H; [now injection H as <-|].
  destruct (is_object x) eqn:Hobj;
    [|now rewrite (redact_in_primitive n x F Hobj) in H].
  assert (Hw : walked x = x)
    by (unfold walked; now rewrite (doc_free_toObject_of x Hd)).
  destruct x as [ | | | | | | |l|[plain|] es]; try discriminate.
  - rewrite (redact_in_array n (VArr l) F l eq_refl Hw) in H.
    unfold as_arr in H.
    destruct (walk_arr (fun v => redact_in n v F) F 0 l []) as [out|e']
      eqn:Hout; [discriminate|].
    injection H as ->.
    destruct (walk_arr_throws _ F e l _ _ Hout) as (v & Hin & Hv).
    simpl in Hd. rewrite forallb_forall in Hd. exact (IH v e (Hd v Hin) Hv).
  - rewrite (redact_in_mapping n (VObj None es) F None es eq_refl Hw) in H.
    unfold as_obj in H.
    destruct (walk_obj (fun v => redact_in n v F) F es (None, []))
      as [out|e'] eqn:Hout; [discriminate|].
    injection H as ->.
    destruct (walk_obj_throws _ F e es _ Hout) as (kv & Hin & Hv).
    simpl in Hd. rewrite forallb_forall in Hd.
    specialize (Hd kv Hin). apply andb_prop in Hd as [_ Hd].
    exact (IH (snd kv) e Hd Hv).
Qed.

(** On a value no object of which has a [toObject] to call, inherited or
    own, [redactObject] returns whenever the stack has room for the
    nesting of the value (one frame per level, and one for a value that
    is not an object); with any stack, the only exception it can throw is
    the [RangeError] of a full stack, never the [TypeError] of
    [Object.entries]. *)
Theorem redactObject_returns_on_plain x F stack :
  doc_free x = true ->
  ((0 < stack)%nat -> (nesting x <= stack)%nat ->
   exists y, redact_in stack x F = Ok y)
  /\ (forall e, redact_in stack x F = Throw e ->
                e = RangeError "Maximum call stack size exceeded").
Proof.
  intros Hd. split.
  - intros Hpos Hn. now apply redact_in_returns.
  - intros e. now apply redact_in_throws.
Qed.

Lemma redactObject_returns_on_plain_witness :
  doc_free card_payload = true /\
  nesting card_payload = 2%nat /\
  (exists y, redact_in 2 card_payload default_redactFields = Ok y) /\
  redact_in 1 card_payload default_redactFields
  = Throw (RangeError "Maximum call stack size exceeded") /\
  (exists y, redactObject card_payload default_redactFields = Ok y).
Proof.
  split; [reflexivity | split; [reflexivity|]].
  destruct (redactObject_returns_on_plain card_payload default_redactFields 2
              eq_refl) as [Hret _].
  destruct (redactObject_returns_on_plain card_payload default_redactFields
              stack_limit eq_refl) as [Hlim _].
  split; [apply Hret; simpl; lia|].
  split; [reflexivity|].
  apply Hlim; unfold stack_limit; simpl nesting; lia.
Defined.

(** The ways to make it throw: a [toObject] that returns [null] or
    [undefined], at the top or anywhere the walk reaches, and a value
    nested deeper than the stack. *)
Example redactObject_throws_on_null_document :
  redactObject (VObj None [("user", VObj (Some VNull) [])]) ["password"]
  = Throw (TypeError "Cannot convert undefined or null to object").
Proof. reflexivity. Qed.

Example redact_in_throws_on_deep_value :
  redact_in 2 (VArr [VArr [VArr []]]) []
  = Throw (RangeError "Maximum call stack size exceeded")
  /\ redact_in 3 (VArr [VArr [VArr []]]) [] = Ok (VArr [VArr [VArr []]]).
Proof. split; reflexivity. Qed.

(** *** Nothing to mask *)






(** The key [__proto__] is not kept: the assignment [out[k] = v] reaches
    the accessor of the prototype and creates no property. *)
Example redactObject_drops_proto_key :
  redactObject (VObj None [("__proto__", VNum 1); ("a", VNum 2)]) []
  = Ok (VObj None [("a", VNum 2)]).
Proof. reflexivity. Qed.

(** *** Shape and lookup *)

(** An array without holes is redacted to an array of the same length. *)
Theorem redactObject_array_length l F y :
  redactObject (VArr l) F = Ok y ->
  exists xs, y = VArr xs /\ List.length xs = List.length l.
Proof.
  unfold redactObject. generalize stack_limit. intros [|n] H; [discriminate|].
  rewrite (redact_in_array n (VArr l) F l eq_refl eq_refl) in H.
  unfold as_arr in H. apply rbind_Ok in H as (out & Hout & [= <-]).
  exists out. split; [reflexivity|].
  destruct (walk_arr_entries _ F l [] out Hout) as (xs & -> & Hxs).
  exact (arr_entries_length _ F l _ _ Hxs).
Qed.

Lemma redactObject_array_length_witness :
  redactObject (VArr [VNum 1; VObj None [("token", VStr "t")]; VNull])
    ["token"; "0"]
  = Ok (VArr [REDACTED; VObj None [("token", REDACTED)]; VNull])
  /\ exists xs,
       VArr [REDACTED; VObj None [("token", REDACTED)]; VNull] = VArr xs
       /\ List.length xs = 3%nat.
Proof.
  split; [reflexivity|].
  apply (redactObject_array_length
           [VNum 1; VObj None [("token", VStr "t")]; VNull] ["token"; "0"]).
  reflexivity.
Defined.

Lemma walk_obj_keys rec F es :
  forall acc out,
    NoDup (map fst (snd acc) ++ map fst es) ->
    walk_obj rec F es acc = Ok out ->
    map fst (snd out)
    = map fst (snd acc)
      ++ filter (fun k => negb (k =? "__proto__")%string) (map fst es).
Proof.
  induction es as [|[k v] es IH]; simpl; intros acc out Hnd Hw.
  - injection Hw as <-. now rewrite app_nil_r.
  - destruct (redact_entry rec F k v) as [x|e]; [|discriminate].
    destruct (String.eqb_spec k "__proto__") as [->|Hk]; simpl.
    + rewrite (IH _ _ ltac:(rewrite assign_proto;
                            exact (NoDup_remove_1 _ _ _ Hnd)) Hw).
      now rewrite assign_proto.
    + assert (Hfresh : ~ In k (map fst (snd acc))).
      { apply NoDup_remove_2 in Hnd. intros Hin. apply Hnd.
        apply in_or_app. now left. }
      rewrite (assign_other _ _ _ Hk) in Hw.
      rewrite (obj_set_fresh _ _ _ Hfresh) in Hw.
      assert (Hnd' : NoDup (map fst (snd (fst acc, snd acc ++ [(k, x)]))
                            ++ map fst es)).
      { cbn [snd]. rewrite map_app, <- app_assoc. exact Hnd. }
      rewrite (IH _ _ Hnd' Hw). cbn [snd].
      now rewrite map_app, <- app_assoc.
Qed.

(** A mapping that has no [toObject] to call and whose keys are distinct
    is redacted to a mapping with the same keys in the same order, but
    for the key [__proto__], which the result never has. *)
Theorem redactObject_keeps_keys t es F y :
  NoDup (map fst es) ->
  toObject_of (VObj t es) = None ->
  redactObject (VObj t es) F = Ok y ->
  exists proto out,
    y = VObj proto out
    /\ map fst out
       = filter (fun k => negb (k =? "__proto__")%string) (map fst es).
Proof.
  unfold redactObject. generalize stack_limit.
  intros [|n] Hnd Ht H; [discriminate|].
  assert (Hw : walked (VObj t es) = VObj t es) by (unfold walked; now rewrite Ht).
  rewrite (redact_in_mapping n (VObj t es) F t es eq_refl Hw) in H.
  unfold as_obj in H. apply rbind_Ok in H as (out & Hout & [= <-]).
  exists (fst out), (snd out). split; [reflexivity|].
  exact (walk_obj_keys _ F es (None, []) out Hnd Hout).
Qed.

Lemma redactObject_keeps_keys_witness :
  let es := [("name", VStr "n"); ("__proto__", VStr "x");
             ("password", VStr "p")] in
  NoDup (map fst es) /\
  toObject_of (VObj None es) = None /\
  redactObject (VObj None es) ["password"]
  = Ok (VObj None [("name", VStr "n"); ("password", REDACTED)]) /\
  exists proto out,
    VObj None [("name", VStr "n"); ("password", REDACTED)] = VObj proto out
    /\ map fst out = ["name"; "password"].
Proof.
  intros es.
  assert (Hnd : NoDup (map fst es)).
  { apply nodupb_NoDup. reflexivity. }
  split; [exact Hnd | split; [reflexivity | split; [reflexivity|]]].
  apply (redactObject_keeps_keys None es ["password"] _ Hnd eq_refl).
  reflexivity.
Defined.

Lemma walk_obj_get_old rec F k es :
  ~ In k (map fst es) ->
  forall acc out,
    walk_obj rec F es acc = Ok out ->
    obj_get (snd out) k = obj_get (snd acc) k.
Proof.
  induction es as [|[k' v'] es IH]; simpl; intros Hk acc out Hw.
  - now injection Hw as <-.
  - destruct (redact_entry rec F k' v') as [x|e]; [|discriminate].
    rewrite (IH ltac:(tauto) _ _ Hw).
    destruct (String.eqb_spec k' "__proto__") as [->|Hp].
    + now rewrite assign_proto.
    + rewrite (assign_other _ _ _ Hp). simpl. rewrite obj_get_set.
      destruct (String.eqb_spec k' k) as [Heq|_]; [|reflexivity].
      destruct Hk. now left.
Qed.

Lemma walk_obj_get_new rec F es k v :
  NoDup (map fst es) -> In (k, v) es -> k <> "__proto__" ->
  forall acc out,
    walk_obj rec F es acc = Ok out ->
    redact_entry rec F k v = Ok (obj_get (snd out) k).
Proof.
  intros Hnd Hin Hk.
  induction es as [|[k' v'] es IH]; simpl; intros acc out Hw;
    [destruct Hin|].
  simpl in Hnd. apply NoDup_cons_iff in Hnd as [Hfresh Hnd].
  destruct (redact_entry rec F k' v') as [x|e] eqn:Hx; [|discriminate].
  destruct Hin as [Heq|Hin].
  - injection Heq as -> ->.
    rewrite (walk_obj_get_old _ F k es Hfresh _ _ Hw).
    rewrite (assign_other _ _ _ Hk). simpl. rewrite obj_get_set.
    now rewrite String.eqb_refl.
  - exact (IH Hnd Hin _ _ Hw).
Qed.

(** A key whose lower-cased form is itself an entry of the field list is
    masked in the output of the loop over a mapping. *)
Lemma walk_obj_masks rec F k :
  includes F (toLowerCase k) = true -> k <> "__proto__" ->
  forall es acc out,
    walk_obj rec F es acc = Ok out ->
    In k (map fst es) \/ obj_get (snd acc) k = REDACTED ->
    obj_get (snd out) k = REDACTED.
Proof.
  intros Hk Hp.
  induction es as [|[k' v'] es IH]; simpl; intros acc out Hw Hin.
  - injection Hw as <-. destruct Hin as [[]|Hacc]. exact Hacc.
  - destruct (redact_entry rec F k' v') as [x|e] eqn:Hx; [|discriminate].
    apply (IH _ _ Hw).
    destruct (String.eqb_spec k' k) as [Heq|Hne].
    + subst k'. right. rewrite (assign_other _ _ _ Hp). simpl.
      rewrite obj_get_set, String.eqb_refl.
      unfold redact_entry in Hx. rewrite Hk in Hx. now injection Hx as <-.
    + destruct Hin as [[Heq|Hin]|Hacc]; [now destruct Hne | now left |].
      right. destruct (String.eqb_spec k' "__proto__") as [->|Hp'].
      * now rewrite assign_proto.
      * rewrite (assign_other _ _ _ Hp'). simpl. rewrite obj_get_set.
        apply String.eqb_neq in Hne. now rewrite Hne.
Qed.

Lemma redactObject_masks F t es proto out k :
  includes F (toLowerCase k) = true -> k <> "__proto__" ->
  In k (map fst es) ->
  toObject_of (VObj t es) = None ->
  redactObject (VObj t es) F = Ok (VObj proto out) ->
  obj_get out k = REDACTED.
Proof.
  unfold redactObject. generalize stack_limit.
  intros [|n] Hk Hp Hin Ht H; [discriminate|].
  assert (Hw : walked (VObj t es) = VObj t es) by (unfold walked; now rewrite Ht).
  rewrite (redact_in_mapping n (VObj t es) F t es eq_refl Hw) in H.
  unfold as_obj in H. apply rbind_Ok in H as (out' & Hout & [= <- <-]).
  apply (walk_obj_masks _ F k Hk Hp es (None, []) out' Hout). now left.
Qed.

Lemma redactObject_entry t es F y k v :
  NoDup (map fst es) ->
  In (k, v) es ->
  k <> "__proto__" ->
  toObject_of (VObj t es) = None ->
  redactObject (VObj t es) F = Ok y ->
  exists proto out,
    y = VObj proto out
    /\ Ok (obj_get out k)
       = if includes F (toLowerCase k) then Ok REDACTED
         else if is_object v then redactObject v F
         else Ok v.
Proof.
  unfold redactObject. generalize stack_limit.
  intros [|n] Hnd Hin Hk Ht H; [discriminate|].
  assert (Hw : walked (VObj t es) = VObj t es) by (unfold walked; now rewrite Ht).
  rewrite (redact_in_mapping n (VObj t es) F t es eq_refl Hw) in H.
  unfold as_obj in H. apply rbind_Ok in H as (out' & Hout & [= <-]).
  exists (fst out'), (snd out'). split; [reflexivity|].
  assert (Hx := walk_obj_get_new _ F es k v Hnd Hin Hk _ _ Hout).
  unfold redact_entry in Hx.
  destruct (includes F (toLowerCase k)); [now symmetry|].
  destruct (is_object v); [|now symmetry].
  symmetry. apply (redact_in_mono F n (S n)); [lia | exact Hx].
Qed.

(** Lookup after redaction.  In the redaction of a mapping that has no
    [toObject] to call and whose keys are distinct, a key other than
    [__proto__] holds the marker when its lower-cased form is an entry of
    the field list, the redaction of the original value when that value
    is an object or an array, and the original value itself otherwise. *)
Theorem redactObject_lookup t es F proto out k v :
  NoDup (map fst es) ->
  In (k, v) es ->
  k <> "__proto__" ->
  toObject_of (VObj t es) = None ->
  redactObject (VObj t es) F = Ok (VObj proto out) ->
  Ok (obj_get out k)
  = if includes F (toLowerCase k) then Ok REDACTED
    else if is_object v then redactObject v F
    else Ok v.
Proof.
  intros Hnd Hin Hk Ht H.
  destruct (redactObject_entry t es F _ k v Hnd Hin Hk Ht H)
    as (proto' & out' & [= <- <-] & Hget).
  exact Hget.
Qed.

Lemma redactObject_lookup_witness :
  let es := [("name", VStr "n"); ("Token", VStr "t");
             ("owner", VObj None [("email", VStr "e")])] in
  let out := [("name", VStr "n"); ("Token", REDACTED);
              ("owner", VObj None [("email", REDACTED)])] in
  NoDup (map fst es) /\
  In ("owner", VObj None [("email", VStr "e")]) es /\
  "owner" <> "__proto__" /\
  toObject_of (VObj None es) = None /\
  redactObject (VObj None es) ["token"; "email"] = Ok (VObj None out) /\
  Ok (obj_get out "owner")
  = redactObject (VObj None [("email", VStr "e")]) ["token"; "email"].
Proof.
  intros es out.
  assert (Hnd : NoDup (map fst es)).
  { apply nodupb_NoDup. reflexivity. }
  assert (Hin : In ("owner", VObj None [("email", VStr "e")]) es).
  { right. right. left. reflexivity. }
  assert (Hk : "owner" <> "__proto__") by discriminate.
  split; [exact Hnd | split; [exact Hin | split; [exact Hk|]]].
  split; [reflexivity | split; [reflexivity|]].
  apply (redactObject_lookup None es ["token"; "email"] None out "owner"
           (VObj None [("email", VStr "e")]) Hnd Hin Hk eq_refl).
  reflexivity.
Defined.

(** *** The comparison with the field list *)

Lemma lower_ascii_idem c : lower_ascii (lower_ascii c) = lower_ascii c.
Proof.
  destruct c as [[] [] [] [] [] [] [] []]; reflexivity.
Qed.

Lemma toLowerCase_idem s : toLowerCase (toLowerCase s) = toLowerCase s.
Proof.
  induction s as [|c s IH]; simpl; [reflexivity|].
  now rewrite lower_ascii_idem, IH.
Qed.

Lemma includes_mixed_case F k :
  Forall (fun f => toLowerCase f <> f) F ->
  includes F (toLowerCase k) = false.
Proof.
  intros HF. destruct (includes F (toLowerCase k)) eqn:H; [|reflexivity].
  apply includes_In in H. rewrite Forall_forall in HF.
  exfalso. apply (HF _ H). apply toLowerCase_idem.
Qed.

Lemma walk_obj_ext (rec rec' : value -> result value) F F' :
  (forall k v, redact_entry rec F k v = redact_entry rec' F' k v) ->
  forall es acc, walk_obj rec F es acc = walk_obj rec' F' es acc.
Proof.
  intros H. induction es as [|[k v] es IH]; simpl; intros acc; [reflexivity|].
  rewrite H. destruct (redact_entry rec' F' k v); [apply IH | reflexivity].
Qed.

Lemma walk_arr_ext (rec rec' : value -> result value) F F' :
  (forall k v, redact_entry rec F k v = redact_entry rec' F' k v) ->
  forall l i acc, walk_arr rec F i l acc = walk_arr rec' F' i l acc.
Proof.
  intros H. induction l as [|v l IH]; simpl; intros i acc; [reflexivity|].
  rewrite H. destruct (redact_entry rec' F' (index_key i) v);
    [apply IH | reflexivity].
Qed.

Lemma redact_in_mixed_case F n :
  Forall (fun f => toLowerCase f <> f) F ->
  forall x, redact_in n x F = redact_in n x [].
Proof.
  intros HF. induction n as [|n IH]; intros x; [reflexivity|].
  assert (He : forall k v,
             redact_entry (fun v => redact_in n v F) F k v
             = redact_entry (fun v => redact_in n v []) [] k v).
  { intros k v. unfold redact_entry.
    rewrite (includes_mixed_case F k HF). simpl.
    destruct (is_object v); [apply IH | reflexivity]. }
  rewrite !redact_in_S.
  destruct (negb (is_object x)); [reflexivity|].
  destruct (walked x); try reflexivity;
    try (now rewrite (walk_obj_ext _ _ F [] He));
    now rewrite (walk_arr_ext _ _ F [] He).
Qed.

(** An entry of the field list that is not in lower case is dead: the key
    is lower-cased before the comparison and the entry is not, so when no
    entry of the list is its own lower-cased form no key matches, whatever
    its case, and [redactObject] does what it does with an empty list. *)
Theorem mixed_case_fields_never_match F x :
  Forall (fun f => toLowerCase f <> f) F ->
  redactObject x F = redactObject x [].
Proof.
  intros HF. unfold redactObject. now apply redact_in_mixed_case.
Qed.

Lemma mixed_case_fields_never_match_witness :
  Forall (fun f => toLowerCase f <> f) ["creditCard"; "SSN"] /\
  redactObject card_payload ["creditCard"; "SSN"] = Ok card_payload /\
  redactObject card_payload ["creditCard"; "SSN"]
  = redactObject card_payload [].
Proof.
  assert (H : Forall (fun f => toLowerCase f <> f) ["creditCard"; "SSN"]).
  { repeat constructor; discriminate. }
  split; [exact H | split; [reflexivity|]].
  apply (mixed_case_fields_never_match ["creditCard"; "SSN"] card_payload H).
Defined.
(** ** The interceptor, one call at a time *)

Lemma shouldLogSuccess_None E req w :
  shouldLogSuccess E req None w
  = (Ok (isMutation (req_method req) && isSuccessful (statusCode w)), w).
Proof.
  unfold shouldLogSuccess, bind, gets, ret, isSuccessful.
  now destruct (isMutation (req_method req)).
Qed.

Lemma shouldLogWarning_Some E req cfg w :
  shouldLogWarning E req (Some cfg) w
  = if trackPerformance cfg && started (startTime w)
    then (Ok (isSuccessful (statusCode w)
              && exceeds (elapsed (clock E (tick w)) (startTime w))
                         (slowRequestThreshold cfg)),
          set_tick (S (tick w)) w)
    else (Ok false, w).
Proof.
  unfold shouldLogWarning, bind, gets, ret, date_now, isSuccessful.
  destruct (trackPerformance cfg); simpl; [|reflexivity].
  now destruct (started (startTime w)).
Qed.

Lemma completion_record_run E req m args cfg msg w :
  completion_record E req m args cfg msg w
  = (completion_data req m args cfg msg (responseTime_at E cfg w)
       (statusCode w),
     after_reading cfg w).
Proof.
  unfold completion_record, completion_data, responseTime_of, responseTime_at,
    after_reading, bind, gets, ret, lift, date_now.
  destruct (trackPerformance cfg); simpl;
    destruct (buildFinalPayload req cfg); simpl; try reflexivity;
    destruct (redactObject (req_body req) (redactFields cfg)); simpl;
    try reflexivity;
    destruct (response_of cfg m args); reflexivity.
Qed.

(** What a run of [logSuccess] or [logWarning] at [level] does from [w]. *)
Lemma log_run E req m args cfg msg level w :
  (logData <- completion_record E req m args cfg msg ;;
   sink_send cfg level logData) w
  = match completion_data req m args cfg msg (responseTime_at E cfg w)
            (statusCode w) with
    | Ok d => (logstyx cfg level d,
               add_sinkCall (level, d) (after_reading cfg w))
    | Throw e => (Throw e, after_reading cfg w)
    end.
Proof.
  unfold bind at 1. rewrite completion_record_run.
  destruct (completion_data _ _ _ _ _ _ _); reflexivity.
Qed.

Lemma wrapped_run E cfg req m args w :
  wrapped E cfg req m args w =
  let s := statusCode w in
  let forward w1 := (originals E m args, add_forwarded (m, args, s) w1) in
  let emit level msg w1 :=
    match completion_data req m args cfg msg (responseTime_at E cfg w1) s with
    | Ok d =>
        match logstyx cfg level d with
        | Ok _ => forward (add_sinkCall (level, d) (after_reading cfg w1))
        | Throw e =>
            (Throw e, add_sinkCall (level, d) (after_reading cfg w1))
        end
    | Throw e => (Throw e, after_reading cfg w1)
    end in
  if logged w then forward w
  else if isMutation (req_method req) && isSuccessful s then
    emit (success (logLevels cfg)) success_message (set_logged true w)
  else if trackPerformance cfg && started (startTime w) then
    if isSuccessful s
       && exceeds (elapsed (clock E (tick w)) (startTime w))
                  (slowRequestThreshold cfg)
    then emit (warning (logLevels cfg)) warning_message
              (set_logged true (set_tick (S (tick w)) w))
    else forward (set_tick (S (tick w)) w)
  else forward w.
Proof.
  unfold wrapped, when.
  unfold bind at 1 2 3 4 5 6. unfold gets, ret, modify. cbv beta iota zeta.
  destruct (logged w) eqn:Hl.
  - simpl. rewrite Hl. reflexivity.
  - rewrite shouldLogSuccess_None.
    destruct (isMutation (req_method req) && isSuccessful (statusCode w)).
    + unfold bind at 1. unfold logSuccess. rewrite log_run. simpl.
      destruct (completion_data _ _ _ _ _ _ _) as [d|e]; [|reflexivity].
      destruct (logstyx cfg _ d); [|reflexivity].
      unfold after_reading. destruct (trackPerformance cfg); reflexivity.
    + simpl. rewrite Hl. rewrite shouldLogWarning_Some.
      destruct (trackPerformance cfg && started (startTime w)) eqn:Ht;
        [|reflexivity].
      destruct (isSuccessful (statusCode w) && exceeds _ _); [|reflexivity].
      unfold bind at 1 2. cbv beta iota.
      unfold logWarning. rewrite log_run. simpl.
      destruct (completion_data _ _ _ _ _ _ _) as [d|e]; [|reflexivity].
      destruct (logstyx cfg _ d); [|reflexivity].
      unfold after_reading. destruct (trackPerformance cfg); reflexivity.
Qed.

Ltac wrapped_cases E cfg req m args w :=
  rewrite (wrapped_run E cfg req m args w); cbv zeta;
  destruct (logged w) eqn:Hlogged;
  [ | destruct (isMutation (req_method req) && isSuccessful (statusCode w))
        eqn:Hsucc;
      [ destruct (completion_data req m args cfg success_message _ _)
          as [d|e] eqn:Hdata;
        [ destruct (logstyx cfg _ d) as [u|e] eqn:Hsink | ]
      | destruct (trackPerformance cfg && started (startTime w)) eqn:Htrack;
        [ destruct (isSuccessful (statusCode w) && exceeds _ _) eqn:Hslow;
          [ destruct (completion_data req m args cfg warning_message _ _)
              as [d|e] eqn:Hdata;
            [ destruct (logstyx cfg _ d) as [u|e] eqn:Hsink | ]
          | ]
        | ] ] ];
  unfold after_reading; destruct (trackPerformance cfg) eqn:Hperf;
  simpl in *.

(** *** Read-only methods *)

(** C1, as amended.  For a request whose method is not one of POST, PUT,
    PATCH, DELETE, a wrapped response operation never emits a SUCCESS log;
    it emits nothing, or one WARNING log, and the latter only when nothing
    was logged before, performance tracking is on, the status is in
    [200,300) and the elapsed time exceeds the slow threshold. *)
Theorem readonly_only_warns E cfg req m args w :
  isMutation (req_method req) = false ->
  sinkCalls (snd (wrapped E cfg req m args w)) = sinkCalls w \/
  (exists d,
      sinkCalls (snd (wrapped E cfg req m args w))
      = sinkCalls w ++ [(warning (logLevels cfg), d)]
      /\ logged w = false
      /\ trackPerformance cfg = true
      /\ isSuccessful (statusCode w) = true
      /\ exceeds (elapsed (clock E (tick w)) (startTime w))
                 (slowRequestThreshold cfg) = true).
Proof.
  intros Hm. wrapped_cases E cfg req m args w; rewrite ?Hm in *;
    try discriminate; auto.
  all: right; exists d; apply andb_prop in Hslow as [H2 Hx]; auto 6.
Qed.

Lemma readonly_only_warns_witness :
  let E := env_after 5000 in
  let w := started_world E accepting_config in
  isMutation (req_method get_users) = false /\
  (sinkCalls (snd (wrapped E accepting_config get_users OpJson json_ok w))
   = sinkCalls w \/
   (exists d,
       sinkCalls (snd (wrapped E accepting_config get_users OpJson json_ok w))
       = sinkCalls w ++ [(warning (logLevels accepting_config), d)]
       /\ logged w = false
       /\ trackPerformance accepting_config = true
       /\ isSuccessful (statusCode w) = true
       /\ exceeds (elapsed (clock E (tick w)) (startTime w))
                  (slowRequestThreshold accepting_config) = true)).
Proof.
  intros E w. split; [reflexivity|].
  apply (readonly_only_warns E accepting_config get_users OpJson json_ok w).
  reflexivity.
Defined.

(** C1, as stated, fails: status 200, GET, 5000 ms elapsed against the
    default threshold of 1000 ms; the run emits one WARNING log. *)
Lemma slow_get_is_logged :
  isMutation (req_method get_users) = false /\
  emitted_levels
    (run_request (env_after 5000) accepting_config get_users
       [a_call 200 OpJson json_ok])
  = ["WARNING"].
Proof. split; reflexivity. Qed.

(** *** Classification of state-changing methods *)

(** C2.  The code at status 200, PUT, 1500 ms elapsed, threshold 1000 ms:
    the run emits one log, at the SUCCESS level and flagged slow, and no
    WARNING. *)
Theorem slow_put_is_logged_as_success :
  exists d,
    sinkCalls (run_request (env_after 1500) accepting_config put_user
                 [a_call 200 OpJson json_ok])
    = [("SUCCESS", d)]
    /\ prop d "isSlow" = VBool true
    /\ prop d "responseTime" = VNum 1500.
Proof. eexists. repeat split; reflexivity. Qed.

(** The call in [createSuccessHandler] passes no configuration to
    [shouldLogSuccess], so a request with a state-changing method and a
    status in [200,300) is logged at the success level whatever the
    elapsed time. *)
Lemma mutation_never_warns E cfg req m args w :
  isMutation (req_method req) = true ->
  isSuccessful (statusCode w) = true ->
  sinkCalls (snd (wrapped E cfg req m args w)) = sinkCalls w \/
  exists d,
    sinkCalls (snd (wrapped E cfg req m args w))
    = sinkCalls w ++ [(success (logLevels cfg), d)].
Proof.
  intros Hm Hs. wrapped_cases E cfg req m args w; rewrite ?Hm, ?Hs in *;
    try discriminate; eauto.
Qed.

(** The other half of C2 holds: status 201, POST, 50 ms gives SUCCESS. *)
Example fast_post_is_logged_as_success :
  emitted_levels
    (run_request (env_after 50) accepting_config post_user
       [a_call 201 OpJson json_ok])
  = ["SUCCESS"].
Proof. reflexivity. Qed.

(** *** At most one automatic log *)

Lemma wrapped_emits_once E cfg req m args w :
  exists l,
    sinkCalls (snd (wrapped E cfg req m args w)) = sinkCalls w ++ l /\
    (List.length l <= if logged w then 0 else 1)%nat /\
    (logged w = true \/ l <> [] ->
     logged (snd (wrapped E cfg req m args w)) = true).
Proof.
  wrapped_cases E cfg req m args w;
    first
      [ exists []; rewrite app_nil_r;
        split; [reflexivity | split; [simpl; lia | intuition congruence]]
      | eexists [_];
        split; [reflexivity | split; [simpl; lia | intros _; reflexivity]] ].
Qed.

Lemma do_call_emits_once E cfg req c w :
  exists l,
    sinkCalls (snd (do_call E cfg req c w)) = sinkCalls w ++ l /\
    (List.length l <= if logged w then 0 else 1)%nat /\
    (logged w = true \/ l <> [] ->
     logged (snd (do_call E cfg req c w)) = true).
Proof.
  unfold do_call. destruct (call_status c) as [s|].
  - exact (wrapped_emits_once E cfg req (call_op c) (call_args c)
             (set_statusCode s w)).
  - exact (wrapped_emits_once E cfg req (call_op c) (call_args c) w).
Qed.

Lemma emissions_bound E cfg req cs :
  forall w,
    (list_sum (emissions E cfg req cs w) <= if logged w then 0 else 1)%nat /\
    List.length (sinkCalls (run_calls E cfg req cs w))
    = (List.length (sinkCalls w) + list_sum (emissions E cfg req cs w))%nat.
Proof.
  induction cs as [|c cs IH]; intros w; simpl.
  - split; [destruct (logged w); lia | lia].
  - destruct (do_call_emits_once E cfg req c w) as (l & Hl & Hlen & Hlog).
    destruct (IH (snd (do_call E cfg req c w))) as [Hsum Htot].
    rewrite Htot, Hl, length_app.
    replace (List.length (sinkCalls w) + List.length l
             - List.length (sinkCalls w))%nat
      with (List.length l) by lia.
    split; [|lia].
    destruct l as [|x l].
    + destruct (logged w) eqn:Hw.
      * rewrite Hlog in Hsum by now left. simpl; lia.
      * destruct (logged (snd (do_call E cfg req c w))); simpl; lia.
    + rewrite Hlog in Hsum by (right; discriminate).
      destruct (logged w); simpl in *; lia.
Qed.

(** C5, as amended.  Over any finite sequence of calls to the wrapped
    response operations of one request, the numbers of automatic logs the
    calls emit sum to at most one, so that no call emits after a call
    that emitted, and the request as a whole emits at most one. *)
Theorem auto_log_at_most_once E cfg req cs :
  (list_sum (emissions E cfg req cs (started_world E cfg)) <= 1)%nat /\
  (List.length (sinkCalls (run_request E cfg req cs)) <= 1)%nat.
Proof.
  destruct (emissions_bound E cfg req cs (started_world E cfg)) as [Hs Ht].
  assert (Hw : sinkCalls (started_world E cfg) = []).
  { unfold started_world, createSuccessHandler, when, bind, modify, next, date_now.
    now destruct (trackPerformance cfg). }
  unfold run_request. rewrite Ht, Hw. simpl.
  destruct (logged (started_world E cfg)); lia.
Qed.

(** C5, as stated, fails: a GET request whose [res.json] call comes 900 ms
    after the start and whose [res.send] and [res.end] calls come after
    1100 ms is logged by the second call, not by the first. *)
Lemma log_emitted_by_second_call :
  emissions env_crossing accepting_config get_users
    [a_call 200 OpJson json_ok; a_call 200 OpSend json_ok; a_call 200 OpEnd []]
    (started_world env_crossing accepting_config)
  = [0; 1; 0]%nat
  /\ ~ first_call_only
        (emissions env_crossing accepting_config get_users
           [a_call 200 OpJson json_ok; a_call 200 OpSend json_ok;
            a_call 200 OpEnd []]
           (started_world env_crossing accepting_config)).
Proof.
  split; [reflexivity|].
  intros [_ H]. inversion H as [|n ns Hn _]. discriminate Hn.
Qed.

(** *** Transparency *)

(** C6, as amended.  A wrapped response operation either calls the
    original operation once, with the arguments it received, and returns
    what the original returns, or, only when this very call fires an
    automatic log (nothing was logged before, and the request is marked
    as logged), it throws the exception raised while that log was being
    emitted: the exception thrown while the record of the log was built,
    and then nothing is handed to the sink, or the exception the sink
    threw on that record, at the level of the log.  In both cases it does
    not call the original operation. *)
Theorem wrapped_forwards_or_throws E cfg req m args w :
  (fst (wrapped E cfg req m args w) = originals E m args /\
   forwarded (snd (wrapped E cfg req m args w))
   = forwarded w ++ [(m, args, statusCode w)])
  \/
  (exists e level msg w1,
      fst (wrapped E cfg req m args w) = Throw e /\
      forwarded (snd (wrapped E cfg req m args w)) = forwarded w /\
      logged w = false /\
      logged (snd (wrapped E cfg req m args w)) = true /\
      ((level = success (logLevels cfg) /\ msg = success_message
        /\ w1 = set_logged true w)
       \/
       (level = warning (logLevels cfg) /\ msg = warning_message
        /\ w1 = set_logged true (set_tick (S (tick w)) w))) /\
      ((completion_data req m args cfg msg (responseTime_at E cfg w1)
          (statusCode w) = Throw e
        /\ sinkCalls (snd (wrapped E cfg req m args w)) = sinkCalls w)
       \/
       (exists d,
           completion_data req m args cfg msg (responseTime_at E cfg w1)
             (statusCode w) = Ok d
           /\ logstyx cfg level d = Throw e
           /\ sinkCalls (snd (wrapped E cfg req m args w))
              = sinkCalls w ++ [(level, d)]))).
Proof.
  rewrite (wrapped_run E cfg req m args w). cbv zeta.
  destruct (logged w) eqn:Hlogged; [left; split; reflexivity|].
  destruct (isMutation (req_method req) && isSuccessful (statusCode w)).
  - destruct (completion_data req m args cfg success_message _ _)
      as [d|e] eqn:Hdata;
      [destruct (logstyx cfg _ d) as [u|e] eqn:Hsink|].
    + left. unfold after_reading.
      destruct (trackPerformance cfg); split; reflexivity.
    + right.
      exists e, (success (logLevels cfg)), success_message,
        (set_logged true w).
      unfold after_reading. destruct (trackPerformance cfg);
        (repeat (split; [reflexivity|]); split; [left; repeat split|];
         right; exists d; repeat split; assumption).
    + right.
      exists e, (success (logLevels cfg)), success_message,
        (set_logged true w).
      unfold after_reading. destruct (trackPerformance cfg);
        (repeat (split; [reflexivity|]); split; [left; repeat split|];
         left; split; [assumption | reflexivity]).
  - destruct (trackPerformance cfg && started (startTime w));
      [|left; split; reflexivity].
    destruct (isSuccessful (statusCode w) && exceeds _ _);
      [|left; split; reflexivity].
    destruct (completion_data req m args cfg warning_message _ _)
      as [d|e] eqn:Hdata;
      [destruct (logstyx cfg _ d) as [u|e] eqn:Hsink|].
    + left. unfold after_reading.
      destruct (trackPerformance cfg); split; reflexivity.
    + right.
      exists e, (warning (logLevels cfg)), warning_message,
        (set_logged true (set_tick (S (tick w)) w)).
      unfold after_reading. destruct (trackPerformance cfg);
        (repeat (split; [reflexivity|]); split; [right; repeat split|];
         right; exists d; repeat split; assumption).
    + right.
      exists e, (warning (logLevels cfg)), warning_message,
        (set_logged true (set_tick (S (tick w)) w)).
      unfold after_reading. destruct (trackPerformance cfg);
        (repeat (split; [reflexivity|]); split; [right; repeat split|];
         left; split; [assumption | reflexivity]).
Qed.

(** When no log is due the wrapped operation is the original one. *)
Lemma wrapped_transparent_when_logged E cfg req m args w :
  logged w = true ->
  wrapped E cfg req m args w
  = (originals E m args, add_forwarded (m, args, statusCode w) w).
Proof.
  intros Hl. rewrite wrapped_run. cbv zeta. now rewrite Hl.
Qed.

(** When the sink accepts the record and building it does not throw, the
    wrapped operation forwards the call and returns the original result. *)
Lemma wrapped_transparent_when_emission_returns E cfg req m args w :
  (forall level d, logstyx cfg level d = Ok tt) ->
  (forall msg rt s, exists d, completion_data req m args cfg msg rt s = Ok d) ->
  fst (wrapped E cfg req m args w) = originals E m args /\
  forwarded (snd (wrapped E cfg req m args w))
  = forwarded w ++ [(m, args, statusCode w)].
Proof.
  intros Hsink0 Hdata0.
  wrapped_cases E cfg req m args w; try (split; reflexivity).
  all: try (rewrite Hsink0 in Hsink; discriminate).
  all: match type of Hdata with
       | completion_data _ _ _ _ ?msg ?rt ?s = _ =>
           destruct (Hdata0 msg rt s) as [d' Hd']; congruence
       end.
Qed.

(** C6, as stated, fails: with the default sink, the console, which has no
    method named SUCCESS, a POST answered with 201 throws out of the
    wrapped [res.json] and the original [res.json] is never called. *)
Lemma console_sink_blocks_response :
  let r := wrapped (env_after 50) (createConfig default_options) post_user
             OpJson json_ok
             (set_statusCode 201
                (started_world (env_after 50) (createConfig default_options)))
  in
  originals (env_after 50) OpJson json_ok = Ok (VStr "res") /\
  fst r = Throw (TypeError "config.logstyx[...] is not a function") /\
  forwarded (snd r) = [].
Proof. repeat split; reflexivity. Qed.

(** *** Fields of the records *)

Lemma completion_data_fields req m args cfg msg rt s d :
  completion_data req m args cfg msg rt s = Ok d ->
  prop d "responseTime" = rt /\
  prop d "statusCode" = VNum s /\
  prop d "isSlow" = VBool (exceeds rt (slowRequestThreshold cfg)).
Proof.
  unfold completion_data. intros H.
  apply rbind_Ok in H as (p & _ & H).
  apply rbind_Ok in H as (b & _ & H).
  apply rbind_Ok in H as (r & _ & H).
  injection H as <-. unfold prop, obj_assign. simpl fold_left.
  rewrite !obj_get_set. simpl. auto.
Qed.

Lemma error_data_fields err req cfg rt d :
  error_data err req cfg rt = Ok d ->
  prop d "statusCode" = VNum (resolved_status err).
Proof.
  unfold error_data. intros H.
  apply rbind_Ok in H as (p & _ & H).
  apply rbind_Ok in H as (b & _ & H).
  injection H as <-. unfold prop, obj_assign. simpl fold_left.
  rewrite !obj_get_set. reflexivity.
Qed.

(** *** Performance tracking disabled *)

(** C9, as amended.  With performance tracking disabled and a slow
    threshold that is not negative, [shouldLogWarning] answers [false], and
    a wrapped response operation emits nothing or one record at the
    success level whose [responseTime] is [null] and whose [isSlow] is
    [false]. *)
Theorem untracked_success_record E cfg req m args w :
  trackPerformance cfg = false ->
  0 <= slowRequestThreshold cfg ->
  fst (shouldLogWarning E req (Some cfg) w) = Ok false /\
  (sinkCalls (snd (wrapped E cfg req m args w)) = sinkCalls w \/
   exists d,
     sinkCalls (snd (wrapped E cfg req m args w))
     = sinkCalls w ++ [(success (logLevels cfg), d)]
     /\ prop d "responseTime" = VNull
     /\ prop d "isSlow" = VBool false).
Proof.
  intros Ht Hthr. split.
  - rewrite shouldLogWarning_Some, Ht. reflexivity.
  - wrapped_cases E cfg req m args w; try discriminate; auto.
    all: right; exists d; split; [reflexivity|].
    all: unfold responseTime_at in Hdata; rewrite ?Hperf in Hdata.
    all: destruct (completion_data_fields _ _ _ _ _ _ _ _ Hdata)
           as (Hrt & _ & Hslow).
    all: unfold exceeds in Hslow;
      rewrite (proj2 (Z.ltb_ge _ _) Hthr) in Hslow; split; assumption.
Qed.

Lemma untracked_success_record_witness :
  let cfg := untracked_config 1000 in
  let w := set_statusCode 201 (started_world (env_after 50) cfg) in
  trackPerformance cfg = false /\
  0 <= slowRequestThreshold cfg /\
  fst (shouldLogWarning (env_after 50) post_user (Some cfg) w) = Ok false /\
  (sinkCalls (snd (wrapped (env_after 50) cfg post_user OpJson json_ok w))
   = sinkCalls w \/
   exists d,
     sinkCalls (snd (wrapped (env_after 50) cfg post_user OpJson json_ok w))
     = sinkCalls w ++ [(success (logLevels cfg), d)]
     /\ prop d "responseTime" = VNull
     /\ prop d "isSlow" = VBool false).
Proof.
  intros cfg w. split; [reflexivity | split; [vm_compute; discriminate|]].
  apply (untracked_success_record (env_after 50) cfg post_user OpJson json_ok w).
  - reflexivity.
  - vm_compute; discriminate.
Defined.

(** C9, as stated, fails for a negative threshold: with tracking disabled
    and [slowRequestThreshold] set to -1, the success record of a POST
    answered with 201 has [responseTime] [null] and [isSlow] [true]. *)
Lemma untracked_negative_threshold_is_slow :
  trackPerformance (untracked_config (-1)) = false /\
  exists d,
    sinkCalls (run_request (env_after 50) (untracked_config (-1)) post_user
                 [a_call 201 OpJson json_ok])
    = [("SUCCESS", d)]
    /\ prop d "responseTime" = VNull
    /\ prop d "isSlow" = VBool true.
Proof. split; [reflexivity|]. eexists. repeat split; reflexivity. Qed.

(** ** Error path *)

Lemma logError_run E err req cfg w :
  logError E err req cfg w
  = match error_data err req cfg (responseTime_at E cfg w) with
    | Ok d => (logstyx cfg (error_level err cfg) d,
               add_sinkCall (error_level err cfg, d) (after_reading cfg w))
    | Throw e => (Throw e, after_reading cfg w)
    end.
Proof.
  unfold logError, error_data, error_level, responseTime_of, responseTime_at,
    after_reading, sink_send, bind, gets, ret, lift, modify, date_now.
  destruct (trackPerformance cfg); simpl;
    destruct (buildFinalPayload req cfg); simpl; try reflexivity;
    destruct (redactObject (req_body req) (redactFields cfg)); reflexivity.
Qed.

Lemma createErrorHandler_run E cfg installed err req w :
  createErrorHandler E cfg installed err req w
  = match res_json E cfg req installed [error_body E err]
            (set_statusCode (resolved_status err) w) with
    | (Ok _, w1) =>
        match logError E err req cfg w1 with
        | (Ok _, w2) => (Ok tt, add_next (Some err) w2)
        | (Throw e, w2) => (Throw e, w2)
        end
    | (Throw e, w1) => (Throw e, w1)
    end.
Proof.
  unfold createErrorHandler, res_status, next, bind, modify, error_body. simpl.
  destruct (res_json _ _ _ _ _ _) as [[u|e] w1]; [|reflexivity].
  destruct (logError E err req cfg w1) as [[u'|e] w2]; reflexivity.
Qed.

(** What [res.json] leaves behind, wrapped or not: the status is kept, the
    calls it forwards carry the current status and the records it emits
    record the current status. *)
Lemma res_json_status E cfg req installed args w :
  statusCode (snd (res_json E cfg req installed args w)) = statusCode w /\
  exists fs ss,
    forwarded (snd (res_json E cfg req installed args w)) = forwarded w ++ fs /\
    sinkCalls (snd (res_json E cfg req installed args w)) = sinkCalls w ++ ss /\
    Forall (fun f => snd f = statusCode w) fs /\
    Forall (fun c => prop (snd c) "statusCode" = VNum (statusCode w)) ss.
Proof.
  unfold res_json. destruct installed.
  - wrapped_cases E cfg req OpJson args w; (split; [reflexivity|]).
    all: try (destruct (completion_data_fields _ _ _ _ _ _ _ _ Hdata)
                as (_ & Hst & _)).
    all: first
           [ exists [(OpJson, args, statusCode w)], [(success (logLevels cfg), d)];
             rewrite ?app_nil_r; repeat split; auto; fail
           | exists [(OpJson, args, statusCode w)], [(warning (logLevels cfg), d)];
             rewrite ?app_nil_r; repeat split; auto; fail
           | exists [], [(success (logLevels cfg), d)];
             rewrite ?app_nil_r; repeat split; auto; fail
           | exists [], [(warning (logLevels cfg), d)];
             rewrite ?app_nil_r; repeat split; auto; fail
           | exists [(OpJson, args, statusCode w)], [];
             rewrite ?app_nil_r; repeat split; auto; fail
           | exists [], []; rewrite ?app_nil_r; repeat split; auto; fail ].
  - unfold call_original, bind, gets, modify, lift. simpl.
    split; [reflexivity|].
    exists [(OpJson, args, statusCode w)], [].
    rewrite app_nil_r. repeat split; auto.
Qed.

(** An instance of C10 in which both the response and the record exist. *)
Example error_path_statuses_example :
  let w := snd (createErrorHandler (env_after 50) accepting_config true
                  unavailable_error post_user
                  (started_world (env_after 50) accepting_config)) in
  map snd (forwarded w) = [503] /\
  map (fun c => prop (snd c) "statusCode") (sinkCalls w) = [VNum 503].
Proof. split; reflexivity. Qed.

(** *** Severity *)

(** C3.  The code on an error whose status 503 is carried by [status]:
    the client receives 503, the record says 503, and the record is sent
    at the ERROR level, not at CRITICAL. *)
Theorem status_alias_503_is_logged_as_error :
  let w := snd (createErrorHandler (env_after 50) accepting_config true
                  unavailable_error post_user
                  (started_world (env_after 50) accepting_config)) in
  resolved_status unavailable_error = 503 /\
  map snd (forwarded w) = [503] /\
  exists d, sinkCalls w = [("ERROR", d)] /\ prop d "statusCode" = VNum 503.
Proof. repeat split. eexists. split; reflexivity. Qed.

(** The level depends on the [statusCode] field alone. *)
Lemma error_level_reads_statusCode err cfg :
  error_level err cfg
  = match err_statusCode err with
    | Some n => if 500 <=? n then critical (logLevels cfg)
                else error (logLevels cfg)
    | None => error (logLevels cfg)
    end.
Proof.
  unfold error_level, statusCode_ge_500. now destruct (err_statusCode err).
Qed.

(** When the error carries [statusCode] itself the routing is as
    specified: 500 and above is CRITICAL, anything else is ERROR. *)
Lemma error_level_with_statusCode err cfg n :
  err_statusCode err = Some n -> n <> 0 ->
  resolved_status err = n /\
  error_level err cfg
  = if 500 <=? resolved_status err then critical (logLevels cfg)
    else error (logLevels cfg).
Proof.
  intros Hn Hz. unfold resolved_status, error_level, statusCode_ge_500.
  rewrite Hn. apply Z.eqb_neq in Hz.
  destruct (err_status err); rewrite Hz; auto.
Qed.

Example error_levels_by_statusCode :
  error_level internal_error accepting_config = "CRITICAL" /\
  error_level (sample_error (Some 503) None) accepting_config = "CRITICAL" /\
  error_level bad_request_error accepting_config = "ERROR" /\
  error_level (sample_error None None) accepting_config = "ERROR" /\
  resolved_status (sample_error None None) = 500.
Proof. repeat split; reflexivity. Qed.

(** *** Faults of the sink *)

(** C8, as stated, fails on the success path: when the sink throws on the
    record of a PUT answered with 200, the exception leaves the wrapped
    [res.json], and the original [res.json] is not called: no response is
    sent by this call. *)
Lemma sink_fault_blocks_response :
  let E := env_after 50 in
  let r := wrapped E failing_config put_user OpJson json_ok
             (started_world E failing_config) in
  (exists d, sinkCalls (snd r) = [("SUCCESS", d)]
             /\ logstyx failing_config "SUCCESS" d
                = Throw (Thrown (VStr "sink unavailable"))) /\
  fst r = Throw (Thrown (VStr "sink unavailable")) /\
  forwarded (snd r) = [].
Proof.
  split; [eexists; split; reflexivity | split; reflexivity].
Qed.

(** ** The wrapper of [src/lib/middleware.js] *)

(** The same request as in C2 through the older wrapper: SUCCESS again. *)
Example slow_put_lib_is_logged_as_success :
  emitted_levels
    (snd (wrapped_lib (env_after 1500) accepting_config put_user OpJson json_ok
            (started_world (env_after 1500) accepting_config)))
  = ["SUCCESS"].
Proof. reflexivity. Qed.

(** ** Payload builder *)

Lemma js_find_first pred l s :
  In s l -> pred s = true ->
  exists pre post,
    l = pre ++ js_find pred l :: post
    /\ Forall (fun x => pred x = false) pre
    /\ pred (js_find pred l) = true.
Proof.
  induction l as [|x l IH]; simpl; intros Hin Hs; [contradiction|].
  destruct (pred x) eqn:Hx.
  - exists [], l. repeat split; [constructor | exact Hx].
  - destruct Hin as [->|Hin]; [congruence|].
    destruct (IH Hin Hs) as (pre & post & Hl & Hpre & Hp).
    exists (x :: pre), post. repeat split.
    + simpl. now rewrite <- Hl.
    + now constructor.
    + exact Hp.
Qed.

Lemma js_find_none pred l :
  (forall s, In s l -> pred s = false) -> js_find pred l = VUndefined.
Proof.
  induction l as [|x l IH]; simpl; intros H; [reflexivity|].
  rewrite (H x (or_introl eq_refl)). apply IH. intros s Hs. apply H. now right.
Qed.

(** Identity probe: when some probed place holds a value that is truthy
    and has a truthy [id], [email] or [username], the user reported is the
    first such value in the order of the probe; the places before it do
    not qualify. *)
Theorem findUserInRequest_first_qualifying req s :
  In s (userSources req) -> qualifies s = true ->
  exists pre post,
    userSources req = pre ++ findUserInRequest req :: post
    /\ Forall (fun x => qualifies x = false) pre
    /\ qualifies (findUserInRequest req) = true.
Proof.
  intros Hin Hq.
  destruct (js_find_first qualifies (userSources req) s Hin Hq)
    as (pre & post & Hl & Hpre & Hp).
  assert (Hu : findUserInRequest req = js_find qualifies (userSources req)).
  { change (findUserInRequest req)
      with (js_or (js_find qualifies (userSources req)) VNull).
    unfold js_or. unfold qualifies in Hp at 1.
    apply andb_prop in Hp as [Ht _]. now rewrite Ht. }
  rewrite Hu. now exists pre, post.
Qed.

Lemma findUserInRequest_first_qualifying_witness :
  let s := VObj None [("username", VStr "u")] in
  In s (userSources session_request) /\
  qualifies s = true /\
  exists pre post,
    userSources session_request
    = pre ++ findUserInRequest session_request :: post
    /\ Forall (fun x => qualifies x = false) pre
    /\ qualifies (findUserInRequest session_request) = true.
Proof.
  intros s.
  assert (Hin : In s (userSources session_request))
    by (right; right; left; reflexivity).
  split; [exact Hin | split; [reflexivity|]].
  exact (findUserInRequest_first_qualifying session_request s Hin eq_refl).
Defined.

(** The session user is chosen over [req.account] there, and [req.user],
    which has no identity field, is passed over. *)
Example findUserInRequest_session_example :
  findUserInRequest session_request = VObj None [("username", VStr "u")].
Proof. reflexivity. Qed.

(** When no probed place qualifies the user is [null], never
    [undefined] and never a value without identity. *)
Theorem findUserInRequest_none req :
  (forall s, In s (userSources req) -> qualifies s = false) ->
  findUserInRequest req = VNull.
Proof.
  intros H.
  change (findUserInRequest req)
    with (js_or (js_find qualifies (userSources req)) VNull).
  now rewrite (js_find_none qualifies _ H).
Qed.

Lemma findUserInRequest_none_witness :
  (forall s, In s (userSources guest_request) -> qualifies s = false) /\
  findUserInRequest guest_request = VNull.
Proof.
  assert (H : forall s, In s (userSources guest_request) ->
                        qualifies s = false).
  { intros s Hs. simpl in Hs.
    repeat (destruct Hs as [<-|Hs]; [reflexivity|]). contradiction. }
  split; [exact H|].
  exact (findUserInRequest_none guest_request H).
Defined.

(** Admin detection: without an explicit [req.admin], a user whose
    [isAdmin] is truthy is reported as the admin, whatever the session
    holds. *)
Theorem findAdminInRequest_flagged_user req :
  truthy (req_admin req) = false ->
  truthy (prop (req_user req) "isAdmin") = true ->
  findAdminInRequest req = req_user req.
Proof.
  intros Ha Hu. unfold findAdminInRequest, js_or. rewrite Ha, Hu.
  destruct (req_user req); try discriminate. reflexivity.
Qed.

Lemma findAdminInRequest_flagged_user_witness :
  truthy (req_admin session_request) = false /\
  truthy (prop (req_user session_request) "isAdmin") = true /\
  findAdminInRequest session_request = req_user session_request.
Proof.
  split; [reflexivity | split; [reflexivity|]].
  apply (findAdminInRequest_flagged_user session_request); reflexivity.
Defined.

Lemma obj_assign_NoDup ps :
  forall o, NoDup (map fst o) -> NoDup (map fst (obj_assign o ps)).
Proof.
  unfold obj_assign.
  induction ps as [|[k v] ps IH]; simpl; intros o Ho; [exact Ho|].
  apply IH. now apply obj_set_NoDup.
Qed.

Lemma obj_assign_get_old ps k :
  ~ In k (map fst ps) ->
  forall o, obj_get (obj_assign o ps) k = obj_get o k.
Proof.
  unfold obj_assign.
  induction ps as [|[k' v'] ps IH]; simpl; intros Hk o; [reflexivity|].
  rewrite IH by (intros Hin; apply Hk; now right).
  rewrite obj_get_set.
  destruct (String.eqb_spec k' k) as [Heq|Hne]; [|reflexivity].
  exfalso. apply Hk. now left.
Qed.

Lemma obj_assign_get_new ps k v :
  NoDup (map fst ps) -> In (k, v) ps ->
  forall o, obj_get (obj_assign o ps) k = v.
Proof.
  induction ps as [|[k' v'] ps IH]; simpl; intros Hnd Hin o; [contradiction|].
  inversion Hnd as [|? ? Hk' Hnd']; subst.
  destruct Hin as [[= -> ->]|Hin].
  - change (obj_get (obj_assign (obj_set o k v) ps) k = v).
    rewrite (obj_assign_get_old ps k Hk'), obj_get_set.
    now rewrite String.eqb_refl.
  - exact (IH Hnd' Hin _).
Qed.

Lemma obj_set_keeps_keys o k v k' :
  In k' (map fst o) -> In k' (map fst (obj_set o k v)).
Proof.
  rewrite obj_set_keys.
  destruct (in_dec string_dec k (map fst o)); [auto|].
  intros H. apply in_or_app. now left.
Qed.

Lemma obj_set_has_key o k v : In k (map fst (obj_set o k v)).
Proof.
  rewrite obj_set_keys.
  destruct (in_dec string_dec k (map fst o)); [assumption|].
  apply in_or_app. right. now left.
Qed.

Lemma obj_assign_has_key ps k :
  forall o, In k (map fst ps) \/ In k (map fst o) ->
            In k (map fst (obj_assign o ps)).
Proof.
  unfold obj_assign.
  induction ps as [|[k' v'] ps IH]; simpl; intros o H.
  - destruct H as [[]|H]; exact H.
  - apply IH. destruct H as [[<-|H]|H].
    + right. apply obj_set_has_key.
    + now left.
    + right. now apply obj_set_keeps_keys.
Qed.

Lemma obj_get_In o k :
  In k (map fst o) -> In (k, obj_get o k) o.
Proof.
  induction o as [|[k' v'] o IH]; simpl; intros H; [contradiction|].
  destruct (String.eqb_spec k' k) as [Heq|Hne].
  - subst. now left.
  - right. apply IH. destruct H as [H|H]; [now destruct Hne | exact H].
Qed.

(** The context hook wins: a field the hook returns under a key other
    than [__proto__] reaches the payload under that key with the hook's
    value, redacted like any other field, whatever the payload builder
    returned under that key, when the merged object has no [toObject]
    function to call. *)
Theorem contextHook_overrides_builder req cfg hook context customPayload
    k v p :
  contextHook cfg = Some hook ->
  buildRequestPayload cfg req = Ok context ->
  hook req = Ok customPayload ->
  NoDup (map fst (spread customPayload)) ->
  In (k, v) (spread customPayload) ->
  k <> "__proto__" ->
  toObject_of (VObj None (obj_assign (obj_assign [] (spread context))
                                     (spread customPayload))) = None ->
  buildFinalPayload req cfg = Ok p ->
  Ok (prop p k)
  = if includes (redactFields cfg) (toLowerCase k) then Ok REDACTED
    else if is_object v then redactObject v (redactFields cfg)
    else Ok v.
Proof.
  intros Hh Hb Hc Hnd Hin Hproto Hto Hp.
  unfold buildFinalPayload in Hp.
  rewrite Hb, rbind_Ok_l, Hh, Hc, !rbind_Ok_l in Hp.
  assert (Hm : NoDup (map fst (obj_assign (obj_assign [] (spread context))
                                          (spread customPayload)))).
  { apply obj_assign_NoDup, obj_assign_NoDup. constructor. }
  assert (Hk : In (k, v) (obj_assign (obj_assign [] (spread context))
                                     (spread customPayload))).
  { rewrite <- (obj_assign_get_new (spread customPayload) k v Hnd Hin
                  (obj_assign [] (spread context))).
    apply obj_get_In. apply obj_assign_has_key. left.
    apply (in_map fst) in Hin. exact Hin. }
  destruct (redactObject_entry None _ (redactFields cfg) p k v
              Hm Hk Hproto Hto Hp) as (proto & out & -> & Hget).
  exact Hget.
Qed.

Lemma contextHook_overrides_builder_witness :
  let hook := fun _ : request =>
                Ok (VObj None [("tenant", VStr "acme");
                               ("path", VStr "/masked");
                               ("message", VStr "from hook")]) in
  let custom := VObj None [("tenant", VStr "acme"); ("path", VStr "/masked");
                           ("message", VStr "from hook")] in
  contextHook hooked_config = Some hook /\
  buildRequestPayload hooked_config post_user
  = Ok (defaultBuildRequestPayload post_user) /\
  hook post_user = Ok custom /\
  NoDup (map fst (spread custom)) /\
  In ("path", VStr "/masked") (spread custom) /\
  "path" <> "__proto__" /\
  toObject_of
    (VObj None (obj_assign
                  (obj_assign [] (spread (defaultBuildRequestPayload post_user)))
                  (spread custom))) = None /\
  (exists p,
      buildFinalPayload post_user hooked_config = Ok p /\
      Ok (prop p "path")
      = if includes (redactFields hooked_config) (toLowerCase "path")
        then Ok REDACTED
        else if is_object (VStr "/masked")
             then redactObject (VStr "/masked") (redactFields hooked_config)
             else Ok (VStr "/masked")).
Proof.
  intros hook custom.
  assert (Hnd : NoDup (map fst (spread custom)))
    by (apply nodupb_NoDup; reflexivity).
  assert (Hin : In ("path", VStr "/masked") (spread custom))
    by (right; left; reflexivity).
  assert (Hk : "path" <> "__proto__") by discriminate.
  repeat (split; [first [reflexivity | assumption]|]).
  eexists. split; [reflexivity|].
  apply (contextHook_overrides_builder post_user hooked_config hook
           (defaultBuildRequestPayload post_user) custom "path"
           (VStr "/masked") _ eq_refl eq_refl eq_refl Hnd Hin Hk eq_refl).
  reflexivity.
Defined.

(** ** Records of the success path *)

Lemma completion_data_inv req m args cfg msg rt s d :
  completion_data req m args cfg msg rt s = Ok d ->
  exists p b r,
    buildFinalPayload req cfg = Ok p /\
    redactObject (req_body req) (redactFields cfg) = Ok b /\
    response_of cfg m args = Ok r /\
    d = VObj None
          (obj_assign
             (obj_assign
                [("title", VStr (req_method req ++ " " ++ req_path req)%string);
                 ("message", VStr (msg rt))]
                (spread p))
             [("body", b); ("response", r); ("responseTime", rt);
              ("statusCode", VNum s);
              ("isSlow", VBool (exceeds rt (slowRequestThreshold cfg)))]).
Proof.
  unfold completion_data. intros H.
  apply rbind_Ok in H as (p & Hp & H).
  apply rbind_Ok in H as (b & Hb & H).
  apply rbind_Ok in H as (r & Hr & H).
  injection H as <-. now exists p, b, r.
Qed.

Lemma snoc_not_self {A} (l : list A) x : l = l ++ [x] -> False.
Proof.
  intros H. apply (f_equal (@List.length A)) in H.
  rewrite length_app in H. simpl in H. lia.
Qed.

Lemma snoc_inj {A} (l : list A) x y : l ++ [x] = l ++ [y] -> x = y.
Proof. intros H. apply app_inv_head in H. now injection H. Qed.

(** What a wrapped call hands to the sink: nothing, or one record built
    by [completion_data] in the state of the call. *)
Lemma wrapped_emitted E cfg req m args w level d :
  sinkCalls (snd (wrapped E cfg req m args w)) = sinkCalls w ++ [(level, d)] ->
  logged w = false /\
  ((isMutation (req_method req) && isSuccessful (statusCode w) = true
    /\ level = success (logLevels cfg)
    /\ completion_data req m args cfg success_message
         (responseTime_at E cfg w) (statusCode w) = Ok d)
   \/
   (isMutation (req_method req) && isSuccessful (statusCode w) = false
    /\ trackPerformance cfg = true
    /\ started (startTime w) = true
    /\ isSuccessful (statusCode w) = true
    /\ exceeds (elapsed (clock E (tick w)) (startTime w))
               (slowRequestThreshold cfg) = true
    /\ level = warning (logLevels cfg)
    /\ completion_data req m args cfg warning_message
         (elapsed (clock E (S (tick w))) (startTime w)) (statusCode w)
       = Ok d)).
Proof.
  rewrite wrapped_run. cbv zeta.
  destruct (logged w) eqn:Hl.
  { simpl. intros H. destruct (snoc_not_self _ _ H). }
  intros H. split; [reflexivity|].
  destruct (isMutation (req_method req) && isSuccessful (statusCode w)) eqn:Hs.
  - left. split; [reflexivity|].
    assert (Hrt : responseTime_at E cfg (set_logged true w)
                  = responseTime_at E cfg w) by reflexivity.
    rewrite Hrt in H.
    destruct (completion_data _ _ _ _ _ _ _) as [d0|e].
    + assert (Hd : (success (logLevels cfg), d0) = (level, d)).
      { apply (snoc_inj (sinkCalls w)). rewrite <- H.
        unfold after_reading.
        destruct (logstyx cfg _ d0), (trackPerformance cfg); reflexivity. }
      injection Hd as <- <-. now split.
    + exfalso. apply (snoc_not_self (sinkCalls w) (level, d)). rewrite <- H.
      unfold after_reading. destruct (trackPerformance cfg); reflexivity.
  - right. split; [reflexivity|].
    destruct (trackPerformance cfg) eqn:Ht; simpl in H;
      [|destruct (snoc_not_self _ _ H)].
    destruct (started (startTime w)) eqn:Hst; simpl in H;
      [|destruct (snoc_not_self _ _ H)].
    destruct (isSuccessful (statusCode w)) eqn:H2; simpl in H;
      [|destruct (snoc_not_self _ _ H)].
    destruct (exceeds _ _) eqn:Hx; simpl in H;
      [|destruct (snoc_not_self _ _ H)].
    unfold responseTime_at, after_reading in H. rewrite Ht in H. simpl in H.
    destruct (completion_data _ _ _ _ _ _ _) as [d0|e]; simpl in H.
    + assert (Hd : (warning (logLevels cfg), d0) = (level, d)).
      { apply (snoc_inj (sinkCalls w)). rewrite <- H.
        destruct (logstyx cfg _ d0); reflexivity. }
      injection Hd as <- <-. repeat split; reflexivity.
    + destruct (snoc_not_self _ _ H).
Qed.

(** The fields a record of the success path cannot lose to the request
    context: whatever the payload builder and the hook return, the record
    handed to the sink has the status of the response at the moment of the
    call, the redacted request body, the redacted first argument of
    [json] or [send] ([null] for [end]), and an [isSlow] flag that is the
    comparison of its own [responseTime] with the threshold. *)
Theorem emitted_record_fields E cfg req m args w level d :
  sinkCalls (snd (wrapped E cfg req m args w)) = sinkCalls w ++ [(level, d)] ->
  prop d "statusCode" = VNum (statusCode w) /\
  prop d "isSlow"
  = VBool (exceeds (prop d "responseTime") (slowRequestThreshold cfg)) /\
  Ok (prop d "body") = redactObject (req_body req) (redactFields cfg) /\
  Ok (prop d "response")
  = match m with
    | OpEnd => Ok VNull
    | _ => redactObject (nth 0 args VUndefined) (redactFields cfg)
    end.
Proof.
  intros H. destruct (wrapped_emitted _ _ _ _ _ _ _ _ H) as [_ Hd].
  assert (Hdata : exists msg rt,
             completion_data req m args cfg msg rt (statusCode w) = Ok d).
  { destruct Hd as [(_ & _ & Hd)|(_ & _ & _ & _ & _ & _ & Hd)]; eauto. }
  destruct Hdata as (msg & rt & Hdata).
  destruct (completion_data_inv _ _ _ _ _ _ _ _ Hdata)
    as (p & b & r & _ & Hb & Hr & ->).
  unfold prop, obj_assign at 1 3 5 7 9. simpl fold_left.
  rewrite !obj_get_set. simpl.
  rewrite Hb. unfold response_of in Hr. rewrite <- Hr.
  repeat split; destruct m; reflexivity.
Qed.

Lemma emitted_record_fields_witness :
  let E := env_after 1500 in
  let w := started_world E accepting_config in
  let d := VObj None
             (obj_assign
                (obj_assign
                   [("title", VStr "PUT /users/1");
                    ("message", VStr "Request completed successfully")]
                   (spread (VObj None
                      [("method", VStr "PUT"); ("url", VStr "/users/1");
                       ("path", VStr "/users/1"); ("ip", VStr "127.0.0.1");
                       ("userAgent", VStr "curl/8"); ("requestId", VStr "r-1");
                       ("user", VObj None [("id", VNum 7);
                                           ("email", REDACTED)]);
                       ("admin", VUndefined); ("session", VNull);
                       ("query", VObj None []); ("params", VObj None [])])))
                [("body", VObj None [("password", REDACTED)]);
                 ("response", VNull);
                 ("responseTime", VNum 1500);
                 ("statusCode", VNum 200);
                 ("isSlow", VBool true)]) in
  sinkCalls (snd (wrapped E accepting_config put_user OpEnd json_ok w))
  = sinkCalls w ++ [("SUCCESS", d)] /\
  prop d "statusCode" = VNum (statusCode w) /\
  prop d "isSlow"
  = VBool (exceeds (prop d "responseTime")
             (slowRequestThreshold accepting_config)) /\
  Ok (prop d "body")
  = redactObject (req_body put_user) (redactFields accepting_config) /\
  Ok (prop d "response") = Ok VNull.
Proof.
  intros E w d. split; [reflexivity|].
  apply (emitted_record_fields E accepting_config put_user OpEnd json_ok w
           "SUCCESS" d).
  reflexivity.
Defined.

(** The request context can replace the title and the message: they are
    written before the context is spread into the record, so a [title] or
    [message] field of the redacted context is what the sink receives. *)
Theorem context_overrides_title_and_message E cfg req m args w level d p k v :
  sinkCalls (snd (wrapped E cfg req m args w)) = sinkCalls w ++ [(level, d)] ->
  buildFinalPayload req cfg = Ok p ->
  NoDup (map fst (spread p)) ->
  In (k, v) (spread p) ->
  k = "title" \/ k = "message" ->
  prop d k = v.
Proof.
  intros H Hp Hnd Hin Hk.
  destruct (wrapped_emitted _ _ _ _ _ _ _ _ H) as [_ Hd].
  assert (Hdata : exists msg rt,
             completion_data req m args cfg msg rt (statusCode w) = Ok d).
  { destruct Hd as [(_ & _ & Hd)|(_ & _ & _ & _ & _ & _ & Hd)]; eauto. }
  destruct Hdata as (msg & rt & Hdata).
  destruct (completion_data_inv _ _ _ _ _ _ _ _ Hdata)
    as (p' & b & r & Hp' & _ & _ & ->).
  rewrite Hp in Hp'. injection Hp' as <-.
  unfold prop. rewrite obj_assign_get_old.
  - exact (obj_assign_get_new (spread p) k v Hnd Hin _).
  - simpl. destruct Hk as [-> | ->]; intuition discriminate.
Qed.

Lemma context_overrides_title_and_message_witness :
  let E := env_after 50 in
  let w := set_statusCode 201 (started_world E hooked_config) in
  exists d p,
    sinkCalls (snd (wrapped E hooked_config post_user OpJson json_ok w))
    = sinkCalls w ++ [("SUCCESS", d)] /\
    buildFinalPayload post_user hooked_config = Ok p /\
    NoDup (map fst (spread p)) /\
    In ("message", VStr "from hook") (spread p) /\
    ("message" = "title" \/ "message" = "message") /\
    prop d "message" = VStr "from hook".
Proof.
  intros E w. eexists. eexists.
  assert (Hs : forall d p,
             sinkCalls (snd (wrapped E hooked_config post_user OpJson
                               json_ok w))
             = sinkCalls w ++ [("SUCCESS", d)] ->
             buildFinalPayload post_user hooked_config = Ok p ->
             NoDup (map fst (spread p)) ->
             In ("message", VStr "from hook") (spread p) ->
             sinkCalls (snd (wrapped E hooked_config post_user OpJson
                               json_ok w))
             = sinkCalls w ++ [("SUCCESS", d)] /\
             buildFinalPayload post_user hooked_config = Ok p /\
             NoDup (map fst (spread p)) /\
             In ("message", VStr "from hook") (spread p) /\
             ("message" = "title" \/ "message" = "message") /\
             prop d "message" = VStr "from hook").
  { intros d p H1 H2 H3 H4. repeat (split; [assumption|]).
    split; [now right|].
    exact (context_overrides_title_and_message E hooked_config post_user
             OpJson json_ok w "SUCCESS" d p "message" (VStr "from hook")
             H1 H2 H3 H4 (or_intror eq_refl)). }
  apply Hs.
  - reflexivity.
  - reflexivity.
  - apply nodupb_NoDup. reflexivity.
  - simpl. intuition.
Defined.

(** Without a [title] in the request context the title of the record is
    the method, a space and the path. *)
Theorem record_title_default E cfg req m args w level d p :
  sinkCalls (snd (wrapped E cfg req m args w)) = sinkCalls w ++ [(level, d)] ->
  buildFinalPayload req cfg = Ok p ->
  ~ In "title" (map fst (spread p)) ->
  prop d "title" = VStr (req_method req ++ " " ++ req_path req)%string.
Proof.
  intros H Hp Hnin.
  destruct (wrapped_emitted _ _ _ _ _ _ _ _ H) as [_ Hd].
  assert (Hdata : exists msg rt,
             completion_data req m args cfg msg rt (statusCode w) = Ok d).
  { destruct Hd as [(_ & _ & Hd)|(_ & _ & _ & _ & _ & _ & Hd)]; eauto. }
  destruct Hdata as (msg & rt & Hdata).
  destruct (completion_data_inv _ _ _ _ _ _ _ _ Hdata)
    as (p' & b & r & Hp' & _ & _ & ->).
  rewrite Hp in Hp'. injection Hp' as <-.
  unfold prop. rewrite obj_assign_get_old.
  - rewrite (obj_assign_get_old (spread p) "title" Hnin). reflexivity.
  - simpl. intuition discriminate.
Qed.

Lemma record_title_default_witness :
  let E := env_after 50 in
  let w := set_statusCode 201 (started_world E accepting_config) in
  exists d p,
    sinkCalls (snd (wrapped E accepting_config post_user OpJson json_ok w))
    = sinkCalls w ++ [("SUCCESS", d)] /\
    buildFinalPayload post_user accepting_config = Ok p /\
    ~ In "title" (map fst (spread p)) /\
    prop d "title" = VStr "POST /users".
Proof.
  intros E w. eexists. eexists.
  assert (Hs : forall d p,
             sinkCalls (snd (wrapped E accepting_config post_user OpJson
                               json_ok w))
             = sinkCalls w ++ [("SUCCESS", d)] ->
             buildFinalPayload post_user accepting_config = Ok p ->
             ~ In "title" (map fst (spread p)) ->
             sinkCalls (snd (wrapped E accepting_config post_user OpJson
                               json_ok w))
             = sinkCalls w ++ [("SUCCESS", d)] /\
             buildFinalPayload post_user accepting_config = Ok p /\
             ~ In "title" (map fst (spread p)) /\
             prop d "title" = VStr "POST /users").
  { intros d p H1 H2 H3. repeat (split; [assumption|]).
    exact (record_title_default E accepting_config post_user OpJson json_ok w
             "SUCCESS" d p H1 H2 H3). }
  apply Hs.
  - reflexivity.
  - reflexivity.
  - simpl. intuition discriminate.
Defined.

(** ** Interceptor: when it stays silent, and what it records *)

(** A response whose status is outside [200,300) is never logged by the
    interceptor, whatever the method and the elapsed time: the wrapped
    operation calls the original one and returns its result. *)
Theorem non_2xx_is_not_logged E cfg req m args w :
  isSuccessful (statusCode w) = false ->
  sinkCalls (snd (wrapped E cfg req m args w)) = sinkCalls w /\
  logged (snd (wrapped E cfg req m args w)) = logged w /\
  fst (wrapped E cfg req m args w) = originals E m args /\
  forwarded (snd (wrapped E cfg req m args w))
  = forwarded w ++ [(m, args, statusCode w)].
Proof.
  intros Hs. rewrite wrapped_run. cbv zeta. rewrite Hs, andb_false_r. simpl.
  destruct (logged w) eqn:Hl; simpl; [now rewrite Hl|].
  destruct (trackPerformance cfg && started (startTime w)); simpl;
    now rewrite Hl.
Qed.

Lemma non_2xx_is_not_logged_witness :
  let E := env_after 5000 in
  let w := set_statusCode 404 (started_world E accepting_config) in
  isSuccessful (statusCode w) = false /\
  sinkCalls (snd (wrapped E accepting_config post_user OpJson json_ok w))
  = sinkCalls w /\
  logged (snd (wrapped E accepting_config post_user OpJson json_ok w))
  = logged w /\
  fst (wrapped E accepting_config post_user OpJson json_ok w)
  = originals E OpJson json_ok /\
  forwarded (snd (wrapped E accepting_config post_user OpJson json_ok w))
  = forwarded w ++ [(OpJson, json_ok, statusCode w)].
Proof.
  intros E w. split; [reflexivity|].
  apply (non_2xx_is_not_logged E accepting_config post_user OpJson json_ok w).
  reflexivity.
Defined.

Lemma wrapped_transparent_when_logged_witness :
  let E := env_after 50 in
  let w := snd (wrapped E accepting_config post_user OpJson json_ok
                  (set_statusCode 201 (started_world E accepting_config))) in
  logged w = true /\
  wrapped E accepting_config post_user OpSend json_ok w
  = (originals E OpSend json_ok,
     add_forwarded (OpSend, json_ok, statusCode w) w).
Proof.
  intros E w. split; [reflexivity|].
  apply (wrapped_transparent_when_logged E accepting_config post_user OpSend
           json_ok w).
  reflexivity.
Defined.

Lemma mutation_never_warns_witness :
  let E := env_after 1500 in
  let w := started_world E accepting_config in
  isMutation (req_method put_user) = true /\
  isSuccessful (statusCode w) = true /\
  (sinkCalls (snd (wrapped E accepting_config put_user OpJson json_ok w))
   = sinkCalls w \/
   exists d,
     sinkCalls (snd (wrapped E accepting_config put_user OpJson json_ok w))
     = sinkCalls w ++ [(success (logLevels accepting_config), d)]).
Proof.
  intros E w. split; [reflexivity | split; [reflexivity|]].
  apply (mutation_never_warns E accepting_config put_user OpJson json_ok w);
    reflexivity.
Defined.

Lemma wrapped_transparent_when_emission_returns_witness :
  let E := env_after 50 in
  let w := set_statusCode 201 (started_world E accepting_config) in
  (forall level d, logstyx accepting_config level d = Ok tt) /\
  (forall msg rt s,
      exists d, completion_data post_user OpJson json_ok accepting_config
                  msg rt s = Ok d) /\
  fst (wrapped E accepting_config post_user OpJson json_ok w)
  = originals E OpJson json_ok /\
  forwarded (snd (wrapped E accepting_config post_user OpJson json_ok w))
  = forwarded w ++ [(OpJson, json_ok, statusCode w)].
Proof.
  intros E w.
  assert (H1 : forall level d, logstyx accepting_config level d = Ok tt)
    by reflexivity.
  assert (H2 : forall msg rt s,
             exists d, completion_data post_user OpJson json_ok
                         accepting_config msg rt s = Ok d)
    by (intros; eexists; reflexivity).
  split; [exact H1 | split; [exact H2|]].
  exact (wrapped_transparent_when_emission_returns E accepting_config
           post_user OpJson json_ok w H1 H2).
Defined.

(** With a clock that does not run backwards, every WARNING record says
    it is slow: for a read-only method, the record a wrapped call emits
    has [isSlow] [true]. *)
Theorem warning_record_is_slow E cfg req m args w level d :
  isMutation (req_method req) = false ->
  clock E (tick w) <= clock E (S (tick w)) ->
  sinkCalls (snd (wrapped E cfg req m args w)) = sinkCalls w ++ [(level, d)] ->
  level = warning (logLevels cfg) /\ prop d "isSlow" = VBool true.
Proof.
  intros Hm Hclock H.
  destruct (wrapped_emitted _ _ _ _ _ _ _ _ H) as [_ Hd].
  rewrite Hm in Hd. simpl in Hd.
  destruct Hd as [(C & _)|(_ & Ht & Hst & H2 & Hx & -> & Hd)];
    [discriminate|].
  split; [reflexivity|].
  destruct (completion_data_fields _ _ _ _ _ _ _ _ Hd) as (_ & _ & ->).
  f_equal. destruct (startTime w) as [s|]; [|discriminate].
  unfold elapsed, exceeds in *. apply Z.ltb_lt in Hx. apply Z.ltb_lt. lia.
Qed.

Lemma warning_record_is_slow_witness :
  let E := env_after 5000 in
  let w := started_world E accepting_config in
  exists d,
    isMutation (req_method get_users) = false /\
    clock E (tick w) <= clock E (S (tick w)) /\
    sinkCalls (snd (wrapped E accepting_config get_users OpJson json_ok w))
    = sinkCalls w ++ [("WARNING", d)] /\
    "WARNING" = warning (logLevels accepting_config) /\
    prop d "isSlow" = VBool true.
Proof.
  intros E w. eexists.
  assert (Hs : forall d,
             clock E (tick w) <= clock E (S (tick w)) ->
             sinkCalls (snd (wrapped E accepting_config get_users OpJson
                               json_ok w))
             = sinkCalls w ++ [("WARNING", d)] ->
             isMutation (req_method get_users) = false /\
             clock E (tick w) <= clock E (S (tick w)) /\
             sinkCalls (snd (wrapped E accepting_config get_users OpJson
                               json_ok w))
             = sinkCalls w ++ [("WARNING", d)] /\
             "WARNING" = warning (logLevels accepting_config) /\
             prop d "isSlow" = VBool true).
  { intros d H1 H2. split; [reflexivity|]. split; [exact H1|].
    split; [exact H2|].
    exact (warning_record_is_slow E accepting_config get_users OpJson json_ok
             w "WARNING" d eq_refl H1 H2). }
  apply Hs.
  - vm_compute. discriminate.
  - reflexivity.
Defined.

(** A payload builder that throws takes the response with it: on a
    request the interceptor decides to log, the exception of the builder
    leaves the wrapped operation, no record reaches the sink, the original
    operation is not called, and the request counts as logged. *)
Theorem throwing_builder_blocks_response E cfg req m args w e :
  buildRequestPayload cfg req = Throw e ->
  logged w = false ->
  isMutation (req_method req) = true ->
  isSuccessful (statusCode w) = true ->
  fst (wrapped E cfg req m args w) = Throw e /\
  sinkCalls (snd (wrapped E cfg req m args w)) = sinkCalls w /\
  forwarded (snd (wrapped E cfg req m args w)) = forwarded w /\
  logged (snd (wrapped E cfg req m args w)) = true.
Proof.
  intros Hb Hl Hm Hs. rewrite wrapped_run. cbv zeta.
  rewrite Hl, Hm, Hs. simpl.
  unfold completion_data, buildFinalPayload. rewrite Hb. simpl.
  unfold after_reading. destruct (trackPerformance cfg); repeat split.
Qed.

Lemma throwing_builder_blocks_response_witness :
  let E := env_after 50 in
  let w := set_statusCode 201 (started_world E throwing_builder_config) in
  let e := Thrown (VStr "builder failed") in
  buildRequestPayload throwing_builder_config post_user = Throw e /\
  logged w = false /\
  isMutation (req_method post_user) = true /\
  isSuccessful (statusCode w) = true /\
  fst (wrapped E throwing_builder_config post_user OpJson json_ok w)
  = Throw e /\
  sinkCalls (snd (wrapped E throwing_builder_config post_user OpJson json_ok w))
  = sinkCalls w /\
  forwarded (snd (wrapped E throwing_builder_config post_user OpJson json_ok w))
  = forwarded w /\
  logged (snd (wrapped E throwing_builder_config post_user OpJson json_ok w))
  = true.
Proof.
  intros E w e. repeat (split; [reflexivity|]).
  apply (throwing_builder_blocks_response E throwing_builder_config post_user
           OpJson json_ok w e); reflexivity.
Defined.

(** The elapsed time of the first logged call of a request is the reading
    of the clock at that call minus the reading the success handler took:
    with tracking on, a first call with a state-changing method and a
    status in [200,300) records the second reading minus the first. *)
Theorem first_call_records_elapsed_time E cfg req s m args level d :
  trackPerformance cfg = true ->
  isMutation (req_method req) = true ->
  isSuccessful s = true ->
  sinkCalls (run_request E cfg req [a_call s m args]) = [(level, d)] ->
  prop d "responseTime" = VNum (clock E 1 - clock E 0).
Proof.
  intros Ht Hm Hs.
  unfold run_request, started_world, createSuccessHandler, when, next.
  rewrite Ht. unfold bind, modify, date_now. simpl.
  unfold do_call. simpl. unfold bind at 1. unfold modify at 1. simpl.
  rewrite wrapped_run. cbv zeta. simpl. rewrite Hm, Hs. simpl.
  unfold responseTime_at, after_reading. rewrite Ht. simpl.
  destruct (completion_data _ _ _ _ _ _ _) as [d0|e0] eqn:Hd;
    [|discriminate].
  intros H.
  assert (Hd0 : d0 = d).
  { destruct (logstyx cfg _ d0); simpl in H; now injection H. }
  subst d0.
  exact (proj1 (completion_data_fields _ _ _ _ _ _ _ _ Hd)).
Qed.

Lemma first_call_records_elapsed_time_witness :
  let E := env_after 50 in
  exists d,
    trackPerformance accepting_config = true /\
    isMutation (req_method post_user) = true /\
    isSuccessful 201 = true /\
    sinkCalls (run_request E accepting_config post_user
                 [a_call 201 OpJson json_ok]) = [("SUCCESS", d)] /\
    prop d "responseTime" = VNum (clock E 1 - clock E 0).
Proof.
  intros E. eexists.
  assert (Hs : forall d,
             sinkCalls (run_request E accepting_config post_user
                          [a_call 201 OpJson json_ok]) = [("SUCCESS", d)] ->
             trackPerformance accepting_config = true /\
             isMutation (req_method post_user) = true /\
             isSuccessful 201 = true /\
             sinkCalls (run_request E accepting_config post_user
                          [a_call 201 OpJson json_ok]) = [("SUCCESS", d)] /\
             prop d "responseTime" = VNum (clock E 1 - clock E 0)).
  { intros d H. repeat (split; [first [reflexivity | exact H]|]).
    exact (first_call_records_elapsed_time E accepting_config post_user 201
             OpJson json_ok "SUCCESS" d eq_refl eq_refl eq_refl H). }
  apply Hs. reflexivity.
Defined.

(** ** Error path: response, record and forwarding *)

Lemma res_json_forwards E cfg req installed args s w :
  installed = false \/ isSuccessful s = false ->
  exists w1,
    res_json E cfg req installed args (set_statusCode s w)
    = (originals E OpJson args, add_forwarded (OpJson, args, s) w1)
    /\ sinkCalls w1 = sinkCalls w
    /\ forwarded w1 = forwarded w
    /\ nexts w1 = nexts w.
Proof.
  intros H. unfold res_json. destruct installed.
  - destruct H as [H|H]; [discriminate|].
    rewrite wrapped_run. cbv zeta. simpl. rewrite H, andb_false_r. simpl.
    destruct (logged w); [eexists; repeat split|].
    destruct (trackPerformance cfg && started (startTime w));
      eexists; repeat split.
  - eexists. repeat split.
Qed.

Lemma error_data_inv err req cfg rt d :
  error_data err req cfg rt = Ok d ->
  exists p b,
    buildFinalPayload req cfg = Ok p /\
    d = VObj None
          (obj_assign
             (obj_assign
                [("title", VStr (req_method req ++ " " ++ req_path req)%string);
                 ("message", err_message err)]
                (spread p))
             [("stack", err_stack err); ("errorType", err_name err);
              ("code", err_code err); ("body", b); ("responseTime", rt);
              ("statusCode", VNum (resolved_status err))]).
Proof.
  unfold error_data. intros H.
  apply rbind_Ok in H as (p & Hp & H).
  apply rbind_Ok in H as (b & Hb & H).
  injection H as <-. now exists p, b.
Qed.

Lemma error_data_fixed_fields err req cfg rt d :
  error_data err req cfg rt = Ok d ->
  prop d "stack" = err_stack err /\
  prop d "errorType" = err_name err /\
  prop d "code" = err_code err /\
  prop d "statusCode" = VNum (resolved_status err).
Proof.
  intros H. destruct (error_data_inv _ _ _ _ _ H) as (p & b & _ & ->).
  unfold prop, obj_assign at 1 3 5 7. simpl fold_left.
  rewrite !obj_get_set. simpl. auto.
Qed.

(** The run of the error handler when [res.json] does not itself log. *)
Lemma createErrorHandler_outcome E cfg installed err req w :
  installed = false \/ isSuccessful (resolved_status err) = false ->
  exists wj,
    forwarded wj
    = forwarded w ++ [(OpJson, [error_body E err], resolved_status err)]
    /\ sinkCalls wj = sinkCalls w
    /\ nexts wj = nexts w
    /\ createErrorHandler E cfg installed err req w
       = match originals E OpJson [error_body E err] with
         | Throw e => (Throw e, wj)
         | Ok _ =>
             match error_data err req cfg (responseTime_at E cfg wj) with
             | Throw e => (Throw e, after_reading cfg wj)
             | Ok d =>
                 match logstyx cfg (error_level err cfg) d with
                 | Ok _ =>
                     (Ok tt,
                      add_next (Some err)
                        (add_sinkCall (error_level err cfg, d)
                           (after_reading cfg wj)))
                 | Throw e =>
                     (Throw e,
                      add_sinkCall (error_level err cfg, d)
                        (after_reading cfg wj))
                 end
             end
         end.
Proof.
  intros H.
  destruct (res_json_forwards E cfg req installed [error_body E err]
              (resolved_status err) w H) as (w1 & Hj & Hs & Hf & Hn).
  exists (add_forwarded (OpJson, [error_body E err], resolved_status err) w1).
  simpl. rewrite Hf, Hs, Hn. repeat split.
  rewrite createErrorHandler_run, Hj.
  destruct (originals E OpJson [error_body E err]); [|reflexivity].
  rewrite logError_run.
  destruct (error_data err req cfg _) as [d|e]; [|reflexivity].
  destruct (logstyx cfg _ d); reflexivity.
Qed.

Lemma after_reading_frame cfg w :
  sinkCalls (after_reading cfg w) = sinkCalls w /\
  forwarded (after_reading cfg w) = forwarded w /\
  nexts (after_reading cfg w) = nexts w.
Proof. unfold after_reading. now destruct (trackPerformance cfg). Qed.

(** Not-found synthesis.  The not-found handler forwards one error, and
    the error handler run on that error answers 404 with the not-found
    message and hands the sink at most one record, at the error level,
    whose [code] is [NOT_FOUND] and whose [statusCode] is 404. *)
Theorem not_found_is_answered_and_logged E cfg installed req w0 w :
  nexts (snd (createNotFoundHandler req w0))
  = nexts w0 ++ [Some (notFoundError req)] /\
  prop (error_body E (notFoundError req)) "error"
  = VStr ("Route not found: " ++ req_method req ++ " " ++ req_path req)%string
  /\
  forwarded (snd (createErrorHandler E cfg installed (notFoundError req) req w))
  = forwarded w ++ [(OpJson, [error_body E (notFoundError req)], 404)] /\
  (sinkCalls (snd (createErrorHandler E cfg installed (notFoundError req)
                     req w))
   = sinkCalls w
   \/
   exists d,
     sinkCalls (snd (createErrorHandler E cfg installed (notFoundError req)
                       req w))
     = sinkCalls w ++ [(error (logLevels cfg), d)]
     /\ prop d "code" = VStr "NOT_FOUND"
     /\ prop d "statusCode" = VNum 404).
Proof.
  split; [reflexivity|].
  split; [unfold error_body; simpl; now destruct (development E)|].
  destruct (createErrorHandler_outcome E cfg installed (notFoundError req)
              req w (or_intror eq_refl)) as (wj & Hf & Hs & Hn & ->).
  destruct (after_reading_frame cfg wj) as (Hs' & Hf' & _).
  change (resolved_status (notFoundError req)) with 404 in Hf.
  destruct (originals E OpJson _); [|split; [exact Hf | now left]].
  destruct (error_data _ req cfg _) as [d|e] eqn:Hd;
    [|simpl; rewrite Hf', Hs'; split; [exact Hf | now left]].
  destruct (error_data_fixed_fields _ _ _ _ _ Hd) as (_ & _ & Hc & Hst).
  destruct (logstyx cfg _ d); simpl; rewrite Hf', Hs', Hs;
    (split; [exact Hf | right; exists d; repeat split; assumption]).
Qed.

Lemma error_level_critical err cfg :
  critical (logLevels cfg) <> error (logLevels cfg) ->
  error_level err cfg = critical (logLevels cfg) ->
  err_statusCode err = Some (resolved_status err) /\
  500 <= resolved_status err.
Proof.
  intros Hne. unfold error_level, statusCode_ge_500, resolved_status.
  destruct (err_statusCode err) as [n|]; [|congruence].
  destruct (500 <=? n) eqn:Hn; [|congruence]. intros _.
  apply Z.leb_le in Hn.
  assert (Hz : (n =? 0) = false) by (apply Z.eqb_neq; lia).
  destruct (err_status err); rewrite Hz; split; (reflexivity || lia).
Qed.

(** What [logError] hands to the sink: nothing when the record cannot be
    built, and otherwise the record, at the level of the error. *)
Lemma logError_emitted E err req cfg w level d :
  sinkCalls (snd (logError E err req cfg w)) = sinkCalls w ++ [(level, d)] ->
  level = error_level err cfg /\
  error_data err req cfg (responseTime_at E cfg w) = Ok d.
Proof.
  rewrite logError_run.
  destruct (after_reading_frame cfg w) as (Hs & _ & _).
  destruct (error_data err req cfg _) as [d0|e]; simpl; rewrite Hs; intros H.
  - apply snoc_inj in H. now injection H as <- <-.
  - destruct (snoc_not_self _ _ H).
Qed.

(** CRITICAL is sound: when the two level names differ, a record that
    [logError] hands to the sink at the critical level comes from an error
    whose own [statusCode] is its resolved status, 500 or above, and the
    record carries that status. *)
Theorem critical_means_statusCode_500 E err req cfg w d :
  critical (logLevels cfg) <> error (logLevels cfg) ->
  sinkCalls (snd (logError E err req cfg w))
  = sinkCalls w ++ [(critical (logLevels cfg), d)] ->
  err_statusCode err = Some (resolved_status err) /\
  500 <= resolved_status err /\
  prop d "statusCode" = VNum (resolved_status err).
Proof.
  intros Hne H. apply logError_emitted in H as [Hlevel Hd].
  destruct (error_level_critical err cfg Hne (eq_sym Hlevel)) as [H1 H2].
  destruct (error_data_fixed_fields _ _ _ _ _ Hd) as (_ & _ & _ & H3).
  auto.
Qed.

Lemma critical_means_statusCode_500_witness :
  let E := env_after 50 in
  let w := started_world E accepting_config in
  exists d,
    critical (logLevels accepting_config)
    <> error (logLevels accepting_config)
    /\ sinkCalls (snd (logError E internal_error post_user accepting_config w))
       = sinkCalls w ++ [(critical (logLevels accepting_config), d)]
    /\ err_statusCode internal_error = Some (resolved_status internal_error)
    /\ 500 <= resolved_status internal_error
    /\ prop d "statusCode" = VNum (resolved_status internal_error).
Proof.
  intros E w. eexists.
  assert (H : critical (logLevels accepting_config)
              <> error (logLevels accepting_config)) by discriminate.
  assert (Hs : forall d,
             sinkCalls (snd (logError E internal_error post_user
                               accepting_config w))
             = sinkCalls w ++ [(critical (logLevels accepting_config), d)] ->
             critical (logLevels accepting_config)
             <> error (logLevels accepting_config)
             /\ sinkCalls (snd (logError E internal_error post_user
                                  accepting_config w))
                = sinkCalls w ++ [(critical (logLevels accepting_config), d)]
             /\ err_statusCode internal_error
                = Some (resolved_status internal_error)
             /\ 500 <= resolved_status internal_error
             /\ prop d "statusCode" = VNum (resolved_status internal_error)).
  { intros d Hd. split; [exact H | split; [exact Hd|]].
    exact (critical_means_statusCode_500 E internal_error post_user
             accepting_config w d H Hd). }
  apply Hs. reflexivity.
Defined.

(** *** What [res.json] and the handler leave behind *)

Lemma snoc_last {A} (l ss ss' : list A) x y :
  l ++ ss ++ [x] = l ++ ss' ++ [y] -> x = y.
Proof.
  intros H. apply app_inv_head in H. now apply app_inj_tail in H.
Qed.

Lemma snoc_not_nil {A} (l ss : list A) x : l ++ ss ++ [x] = l -> False.
Proof.
  intros H. apply (f_equal (@List.length A)) in H.
  rewrite !length_app in H. simpl in H. lia.
Qed.

(** One call of the current [res.json]: it does not call [next]; either
    it forwards the call and returns what the original returns, having
    handed the sink nothing or one record that the sink accepted, or it
    throws without forwarding, having handed the sink nothing or one
    record on which the sink threw that exception. *)
Lemma res_json_outcome E cfg req installed args w :
  nexts (snd (res_json E cfg req installed args w)) = nexts w /\
  ((fst (res_json E cfg req installed args w) = originals E OpJson args /\
    forwarded (snd (res_json E cfg req installed args w))
    = forwarded w ++ [(OpJson, args, statusCode w)] /\
    exists ss,
      sinkCalls (snd (res_json E cfg req installed args w))
      = sinkCalls w ++ ss /\
      (ss = [] \/ exists level d u,
                    ss = [(level, d)] /\ logstyx cfg level d = Ok u))
   \/
   (exists e,
       fst (res_json E cfg req installed args w) = Throw e /\
       forwarded (snd (res_json E cfg req installed args w)) = forwarded w /\
       exists ss,
         sinkCalls (snd (res_json E cfg req installed args w))
         = sinkCalls w ++ ss /\
         (ss = [] \/ exists level d,
                       ss = [(level, d)] /\ logstyx cfg level d = Throw e))).
Proof.
  unfold res_json. destruct installed.
  - wrapped_cases E cfg req OpJson args w; (split; [reflexivity|]).
    all: first
           [ left; split; [reflexivity|]; split; [reflexivity|];
             first [ exists []; split; [now rewrite app_nil_r | now left]
                   | eexists; split; [reflexivity|]; right;
                     do 3 eexists; split; [reflexivity | eassumption] ]
           | right; exists e; split; [reflexivity|]; split; [reflexivity|];
             first [ exists []; split; [now rewrite app_nil_r | now left]
                   | eexists; split; [reflexivity|]; right;
                     do 2 eexists; split; [reflexivity | eassumption] ] ].
  - unfold call_original, bind, gets, modify, lift. simpl.
    split; [reflexivity|]. left. split; [reflexivity|].
    split; [reflexivity|]. exists []. split; [now rewrite app_nil_r | now left].
Qed.

(** When the sink throws on the last record the error handler hands to
    it, that exception leaves the handler and [next] is not called. *)
Lemma createErrorHandler_sink_fault E cfg installed err req w ss level d e :
  sinkCalls (snd (createErrorHandler E cfg installed err req w))
  = sinkCalls w ++ ss ++ [(level, d)] ->
  logstyx cfg level d = Throw e ->
  fst (createErrorHandler E cfg installed err req w) = Throw e /\
  nexts (snd (createErrorHandler E cfg installed err req w)) = nexts w.
Proof.
  rewrite createErrorHandler_run.
  destruct (res_json_outcome E cfg req installed [error_body E err]
              (set_statusCode (resolved_status err) w)) as [Hn Hj].
  simpl in Hn, Hj.
  assert (Hlast : forall ss' level' d',
             sinkCalls w ++ ss' = sinkCalls w ++ ss ++ [(level, d)] ->
             ss' = [] \/ ss' = [(level', d')] ->
             ss' = [(level', d')] /\ (level', d') = (level, d)).
  { intros ss' level' d' Heq [->| ->].
    - rewrite app_nil_r in Heq. symmetry in Heq.
      destruct (snoc_not_nil _ _ _ Heq).
    - split; [reflexivity|].
      exact (snoc_last (sinkCalls w) [] ss _ _ Heq). }
  destruct (res_json _ _ _ _ _ _) as [[u|e0] w1]; simpl in *.
  - destruct Hj as [(_ & _ & ss1 & Hs1 & Hss1)|(e1 & He1 & _)];
      [|discriminate].
    rewrite logError_run.
    destruct (after_reading_frame cfg w1) as (Hs' & _ & Hn').
    destruct (error_data err req cfg _) as [d1|e1].
    + intros H Hsink.
      assert (Hd : (error_level err cfg, d1) = (level, d)).
      { apply (snoc_last (sinkCalls w) ss1 ss).
        rewrite <- H, app_assoc, <- Hs1.
        destruct (logstyx cfg _ d1); simpl; now rewrite Hs'. }
      injection Hd as Hl Hd1. rewrite Hl, Hd1, Hsink. simpl.
      now rewrite Hn', Hn.
    + simpl. rewrite Hs', Hs1. intros H Hsink. exfalso.
      destruct Hss1 as [->|(l0 & d0 & u0 & -> & Hok)].
      * rewrite app_nil_r in H. symmetry in H.
        destruct (snoc_not_nil _ _ _ H).
      * assert (Hd := snoc_last (sinkCalls w) [] ss _ _ H).
        injection Hd as <- <-. congruence.
  - intros H Hsink. rewrite Hn.
    destruct Hj as [(Ho & _ & ss1 & Hs1 & Hss1)|(e1 & He1 & _ & ss1 & Hs1 & Hss1)].
    + exfalso. rewrite Hs1 in H.
      destruct Hss1 as [->|(l0 & d0 & u0 & -> & Hok)].
      * rewrite app_nil_r in H. symmetry in H.
        destruct (snoc_not_nil _ _ _ H).
      * assert (Hd := snoc_last (sinkCalls w) [] ss _ _ H).
        injection Hd as <- <-. congruence.
    + injection He1 as <-. rewrite Hs1 in H.
      destruct Hss1 as [->|(l0 & d0 & -> & Hthrow)].
      * exfalso. rewrite app_nil_r in H. symmetry in H.
        destruct (snoc_not_nil _ _ _ H).
      * assert (Hd := snoc_last (sinkCalls w) [] ss _ _ H).
        injection Hd as <- <-. split; [congruence | reflexivity].
Qed.

(** When the sink throws on the record of the automatic log, that
    exception leaves the wrapped operation, which does not call the
    original one. *)
Lemma wrapped_sink_fault E cfg req m args w level0 d0 e0 :
  sinkCalls (snd (wrapped E cfg req m args w)) = sinkCalls w ++ [(level0, d0)] ->
  logstyx cfg level0 d0 = Throw e0 ->
  fst (wrapped E cfg req m args w) = Throw e0 /\
  forwarded (snd (wrapped E cfg req m args w)) = forwarded w.
Proof.
  wrapped_cases E cfg req m args w; intros H Hthrow;
    try (exfalso; exact (snoc_not_self _ _ H));
    apply snoc_inj in H; injection H as <- <-;
    split; congruence.
Qed.

(** The error handler does not swallow the error: when the response is
    sent, the record is built and the sink accepts it, the handler sends
    one response, hands one record to the sink at the level of the error,
    and then forwards the error itself to [next]. *)
Theorem error_is_logged_then_forwarded E cfg installed err req w u :
  installed = false \/ isSuccessful (resolved_status err) = false ->
  originals E OpJson [error_body E err] = Ok u ->
  (forall rt, exists d, error_data err req cfg rt = Ok d) ->
  (forall level d, logstyx cfg level d = Ok tt) ->
  fst (createErrorHandler E cfg installed err req w) = Ok tt /\
  nexts (snd (createErrorHandler E cfg installed err req w))
  = nexts w ++ [Some err] /\
  forwarded (snd (createErrorHandler E cfg installed err req w))
  = forwarded w ++ [(OpJson, [error_body E err], resolved_status err)] /\
  exists d,
    sinkCalls (snd (createErrorHandler E cfg installed err req w))
    = sinkCalls w ++ [(error_level err cfg, d)].
Proof.
  intros H Ho Hd Hsink.
  destruct (createErrorHandler_outcome E cfg installed err req w H)
    as (wj & Hf & Hs & Hn & ->).
  destruct (after_reading_frame cfg wj) as (Hs' & Hf' & Hn').
  rewrite Ho. destruct (Hd (responseTime_at E cfg wj)) as [d ->].
  rewrite Hsink. simpl. rewrite Hs', Hf', Hn', Hs, Hf, Hn.
  repeat split. now exists d.
Qed.

Lemma error_is_logged_then_forwarded_witness :
  let E := env_after 50 in
  let w := started_world E accepting_config in
  (true = false \/ isSuccessful (resolved_status bad_request_error) = false) /\
  originals E OpJson [error_body E bad_request_error] = Ok (VStr "res") /\
  (forall rt, exists d,
      error_data bad_request_error post_user accepting_config rt = Ok d) /\
  (forall level d, logstyx accepting_config level d = Ok tt) /\
  fst (createErrorHandler E accepting_config true bad_request_error
         post_user w) = Ok tt /\
  nexts (snd (createErrorHandler E accepting_config true bad_request_error
                post_user w))
  = nexts w ++ [Some bad_request_error] /\
  forwarded (snd (createErrorHandler E accepting_config true bad_request_error
                    post_user w))
  = forwarded w
    ++ [(OpJson, [error_body E bad_request_error],
         resolved_status bad_request_error)] /\
  exists d,
    sinkCalls (snd (createErrorHandler E accepting_config true
                      bad_request_error post_user w))
    = sinkCalls w ++ [(error_level bad_request_error accepting_config, d)].
Proof.
  intros E w.
  assert (H1 : true = false
               \/ isSuccessful (resolved_status bad_request_error) = false)
    by (right; reflexivity).
  assert (H3 : forall rt, exists d,
               error_data bad_request_error post_user accepting_config rt
               = Ok d) by (intros; eexists; reflexivity).
  assert (H4 : forall level d, logstyx accepting_config level d = Ok tt)
    by reflexivity.
  split; [exact H1 | split; [reflexivity | split; [exact H3|]]].
  split; [exact H4|].
  exact (error_is_logged_then_forwarded E accepting_config true
           bad_request_error post_user w (VStr "res") H1 eq_refl H3 H4).
Defined.

(** A fault of the sink on the error path is not contained, with or
    without the success handler: when the sink throws on the last record
    the error handler hands to it, be it the error record or the record
    of an automatic log fired by [res.json], that exception leaves the
    handler and the error is not forwarded to [next]. *)
Theorem sink_fault_leaves_error_handler E cfg installed err req w ss level
    d e :
  sinkCalls (snd (createErrorHandler E cfg installed err req w))
  = sinkCalls w ++ ss ++ [(level, d)] ->
  logstyx cfg level d = Throw e ->
  fst (createErrorHandler E cfg installed err req w) = Throw e /\
  nexts (snd (createErrorHandler E cfg installed err req w)) = nexts w.
Proof. apply createErrorHandler_sink_fault. Qed.

Lemma sink_fault_leaves_error_handler_witness :
  let E := env_after 50 in
  let w := started_world E failing_config in
  let e := Thrown (VStr "sink unavailable") in
  exists d,
    sinkCalls (snd (createErrorHandler E failing_config true internal_error
                      post_user w))
    = sinkCalls w ++ [] ++ [("CRITICAL", d)] /\
    logstyx failing_config "CRITICAL" d = Throw e /\
    fst (createErrorHandler E failing_config true internal_error post_user w)
    = Throw e /\
    nexts (snd (createErrorHandler E failing_config true internal_error
                  post_user w)) = nexts w.
Proof.
  intros E w e. eexists.
  assert (Hs : forall d,
             sinkCalls (snd (createErrorHandler E failing_config true
                               internal_error post_user w))
             = sinkCalls w ++ [] ++ [("CRITICAL", d)] ->
             sinkCalls (snd (createErrorHandler E failing_config true
                               internal_error post_user w))
             = sinkCalls w ++ [] ++ [("CRITICAL", d)] /\
             logstyx failing_config "CRITICAL" d = Throw e /\
             fst (createErrorHandler E failing_config true internal_error
                    post_user w) = Throw e /\
             nexts (snd (createErrorHandler E failing_config true
                           internal_error post_user w)) = nexts w).
  { intros d Hd. split; [exact Hd | split; [reflexivity|]].
    exact (sink_fault_leaves_error_handler E failing_config true
             internal_error post_user w [] "CRITICAL" d e Hd eq_refl). }
  apply Hs. reflexivity.
Defined.

(** With the success handler installed and an error whose status is in
    [200,300), the record on which the sink throws is the one of the
    automatic log fired by [res.json]: the handler throws before the
    response is sent and before [logError] runs. *)
Example sink_fault_in_wrapped_error_response :
  let E := env_after 50 in
  let w := started_world E failing_config in
  let r := createErrorHandler E failing_config true
             (sample_error (Some 202) None) post_user w in
  fst r = Throw (Thrown (VStr "sink unavailable")) /\
  map fst (sinkCalls (snd r)) = ["SUCCESS"] /\
  forwarded (snd r) = [] /\
  nexts (snd r) = nexts w.
Proof. repeat split; reflexivity. Qed.

(** *** Faults of the sink, on both paths *)

(** C8, as amended.  Sink-fault isolation holds for the response of the
    error path only: unless the wrapped [res.json] itself logs (the
    success handler is installed and the resolved status is in
    [200,300)), the error handler forwards the JSON response under the
    resolved status whatever the sink does afterwards.  The fault is not
    caught: when the sink throws on the last record the error handler
    hands to it, the exception leaves the handler and [next] is not
    called; and on the success path, when the sink throws on the record
    of the automatic log, the exception leaves the wrapped response
    operation and the original operation is not called. *)
Theorem sink_fault_is_not_caught E cfg installed err req w :
  (installed = false \/ isSuccessful (resolved_status err) = false ->
   forwarded (snd (createErrorHandler E cfg installed err req w))
   = forwarded w ++ [(OpJson, [error_body E err], resolved_status err)])
  /\
  (forall ss level d e,
      sinkCalls (snd (createErrorHandler E cfg installed err req w))
      = sinkCalls w ++ ss ++ [(level, d)] ->
      logstyx cfg level d = Throw e ->
      fst (createErrorHandler E cfg installed err req w) = Throw e /\
      nexts (snd (createErrorHandler E cfg installed err req w)) = nexts w)
  /\
  (forall m args w1 level d e,
      sinkCalls (snd (wrapped E cfg req m args w1))
      = sinkCalls w1 ++ [(level, d)] ->
      logstyx cfg level d = Throw e ->
      fst (wrapped E cfg req m args w1) = Throw e /\
      forwarded (snd (wrapped E cfg req m args w1)) = forwarded w1).
Proof.
  split; [|split].
  - intros H.
    destruct (createErrorHandler_outcome E cfg installed err req w H)
      as (wj & Hf & _ & _ & ->).
    destruct (after_reading_frame cfg wj) as (_ & Hf' & _).
    destruct (originals E OpJson _); [|exact Hf].
    destruct (error_data err req cfg _) as [d|e];
      [destruct (logstyx cfg _ d)|]; simpl; now rewrite Hf'.
  - intros ss level d e. apply createErrorHandler_sink_fault.
  - intros m args w1 level d e. apply wrapped_sink_fault.
Qed.

Lemma sink_fault_is_not_caught_witness :
  let E := env_after 50 in
  let w := started_world E failing_config in
  let e := Thrown (VStr "sink unavailable") in
  let EH := createErrorHandler E failing_config true internal_error
              post_user w in
  let W := wrapped E failing_config post_user OpJson json_ok
             (set_statusCode 201 w) in
  (true = false \/ isSuccessful (resolved_status internal_error) = false) /\
  forwarded (snd EH)
  = forwarded w ++ [(OpJson, [error_body E internal_error],
                     resolved_status internal_error)] /\
  (exists d,
      sinkCalls (snd EH) = sinkCalls w ++ [] ++ [("CRITICAL", d)] /\
      logstyx failing_config "CRITICAL" d = Throw e /\
      fst EH = Throw e /\ nexts (snd EH) = nexts w) /\
  (exists d,
      sinkCalls (snd W)
      = sinkCalls (set_statusCode 201 w) ++ [("SUCCESS", d)] /\
      logstyx failing_config "SUCCESS" d = Throw e /\
      fst W = Throw e /\
      forwarded (snd W) = forwarded (set_statusCode 201 w)).
Proof.
  intros E w e EH W.
  destruct (sink_fault_is_not_caught E failing_config true internal_error
              post_user w) as (Hresponse & Herror & Hsuccess).
  assert (H1 : true = false
               \/ isSuccessful (resolved_status internal_error) = false)
    by (right; reflexivity).
  split; [exact H1 | split; [exact (Hresponse H1)|]].
  split.
  - eexists.
    assert (Hs : forall d,
               sinkCalls (snd EH) = sinkCalls w ++ [] ++ [("CRITICAL", d)] ->
               sinkCalls (snd EH) = sinkCalls w ++ [] ++ [("CRITICAL", d)] /\
               logstyx failing_config "CRITICAL" d = Throw e /\
               fst EH = Throw e /\ nexts (snd EH) = nexts w).
    { intros d Hd. split; [exact Hd | split; [reflexivity|]].
      exact (Herror [] "CRITICAL" d e Hd eq_refl). }
    apply Hs. reflexivity.
  - eexists.
    assert (Hs : forall d,
               sinkCalls (snd W)
               = sinkCalls (set_statusCode 201 w) ++ [("SUCCESS", d)] ->
               sinkCalls (snd W)
               = sinkCalls (set_statusCode 201 w) ++ [("SUCCESS", d)] /\
               logstyx failing_config "SUCCESS" d = Throw e /\
               fst W = Throw e /\
               forwarded (snd W) = forwarded (set_statusCode 201 w)).
    { intros d Hd. split; [exact Hd | split; [reflexivity|]].
      exact (Hsuccess OpJson json_ok (set_statusCode 201 w) "SUCCESS" d e Hd
               eq_refl). }
    apply Hs. reflexivity.
Defined.

(** *** The status of the response and of the record *)

(** C10.  For every error the error handler handles, whether or not the
    success handler wrapped the response, every response call the handler
    forwards is made under the resolved status ([statusCode], else
    [status], else 500), and every record it hands to the sink has that
    same status in its [statusCode] field.  And both exist: when the
    response call returns and the record can be built, the handler
    forwards exactly one response, the JSON body under the resolved
    status, and the last record it hands to the sink is the error record,
    at the level of the error, whose [statusCode] field is that same
    status. *)
Theorem error_response_and_record_agree E cfg installed err req w :
  (exists fs ss,
      forwarded (snd (createErrorHandler E cfg installed err req w))
      = forwarded w ++ fs /\
      sinkCalls (snd (createErrorHandler E cfg installed err req w))
      = sinkCalls w ++ ss /\
      Forall (fun f => snd f = resolved_status err) fs /\
      Forall (fun c => prop (snd c) "statusCode" = VNum (resolved_status err))
             ss)
  /\
  (forall u,
      fst (res_json E cfg req installed [error_body E err]
             (set_statusCode (resolved_status err) w)) = Ok u ->
      (forall rt, exists d, error_data err req cfg rt = Ok d) ->
      exists ss d,
        forwarded (snd (createErrorHandler E cfg installed err req w))
        = forwarded w
          ++ [(OpJson, [error_body E err], resolved_status err)] /\
        sinkCalls (snd (createErrorHandler E cfg installed err req w))
        = sinkCalls w ++ ss ++ [(error_level err cfg, d)] /\
        prop d "statusCode" = VNum (resolved_status err)).
Proof.
  split.
  - rewrite createErrorHandler_run.
    destruct (res_json_status E cfg req installed [error_body E err]
                (set_statusCode (resolved_status err) w))
      as (Hst & fs & ss & Hf & Hs & Hfs & Hss).
    simpl in Hf, Hs, Hfs, Hss.
    destruct (res_json _ _ _ _ _ _) as [[u|e] w1]; simpl in *.
    + rewrite logError_run.
      destruct (error_data err req cfg _) as [d|e] eqn:Hd.
      * exists fs, (ss ++ [(error_level err cfg, d)]).
        assert (Hrec := error_data_fields _ _ _ _ _ Hd).
        assert (Hall : Forall (fun c : string * value =>
                                 prop (snd c) "statusCode"
                                 = VNum (resolved_status err))
                              (ss ++ [(error_level err cfg, d)])).
        { apply Forall_app. split; [exact Hss | now constructor]. }
        unfold after_reading.
        destruct (logstyx cfg _ d), (trackPerformance cfg); simpl;
          rewrite Hf, Hs, app_assoc; auto.
      * exists fs, ss. unfold after_reading.
        destruct (trackPerformance cfg); simpl; auto.
    + exists fs, ss. auto.
  - intros u Hu Hbuilt. rewrite createErrorHandler_run.
    destruct (res_json_outcome E cfg req installed [error_body E err]
                (set_statusCode (resolved_status err) w)) as [_ Hj].
    simpl in Hj.
    destruct (res_json _ _ _ _ _ _) as [[u1|e0] w1]; simpl in *;
      [|discriminate].
    destruct Hj as [(_ & Hf & ss & Hs & _)|(e1 & He1 & _)]; [|discriminate].
    rewrite logError_run.
    destruct (after_reading_frame cfg w1) as (Hs' & Hf' & _).
    destruct (Hbuilt (responseTime_at E cfg w1)) as [d Hd]. rewrite Hd.
    exists ss, d.
    destruct (error_data_fixed_fields _ _ _ _ _ Hd) as (_ & _ & _ & Hst).
    destruct (logstyx cfg _ d); simpl;
      rewrite Hf', Hs', Hf, Hs, <- app_assoc; auto.
Qed.

Lemma error_response_and_record_agree_witness :
  let E := env_after 50 in
  let w := started_world E accepting_config in
  let EH := createErrorHandler E accepting_config true unavailable_error
              post_user w in
  fst (res_json E accepting_config post_user true
         [error_body E unavailable_error]
         (set_statusCode (resolved_status unavailable_error) w))
  = Ok (VStr "res") /\
  (forall rt, exists d,
      error_data unavailable_error post_user accepting_config rt = Ok d) /\
  exists ss d,
    forwarded (snd EH)
    = forwarded w ++ [(OpJson, [error_body E unavailable_error], 503)] /\
    sinkCalls (snd EH) = sinkCalls w ++ ss ++ [("ERROR", d)] /\
    prop d "statusCode" = VNum 503.
Proof.
  intros E w EH.
  assert (H2 : forall rt, exists d,
               error_data unavailable_error post_user accepting_config rt
               = Ok d) by (intros; eexists; reflexivity).
  split; [reflexivity | split; [exact H2|]].
  exact (proj2 (error_response_and_record_agree E accepting_config true
                  unavailable_error post_user w)
           (VStr "res") eq_refl H2).
Defined.



(** ** The wrapper of [src/lib/middleware.js], continued *)

Lemma wrapped_lib_run E cfg req m args w :
  wrapped_lib E cfg req m args w =
  let s := statusCode w in
  let forward w1 := (originals E m args, add_forwarded (m, args, s) w1) in
  if logged w then forward w
  else if isMutation (req_method req) && isSuccessful s then
    match completion_data req m args cfg success_message
            (responseTime_at E cfg (set_logged true w)) s with
    | Ok d =>
        match logstyx cfg (success (logLevels cfg)) d with
        | Ok _ =>
            forward (add_sinkCall (success (logLevels cfg), d)
                       (after_reading cfg (set_logged true w)))
        | Throw e =>
            (Throw e,
             add_sinkCall (success (logLevels cfg), d)
               (after_reading cfg (set_logged true w)))
        end
    | Throw e => (Throw e, after_reading cfg (set_logged true w))
    end
  else forward w.
Proof.
  unfold wrapped_lib, when, shouldLogSuccess_lib.
  unfold bind at 1 2 3. unfold gets, ret, modify. cbv beta iota zeta.
  destruct (logged w) eqn:Hl; [reflexivity|].
  unfold bind at 1. simpl. unfold isSuccessful.
  rewrite (andb_comm _ (isMutation (req_method req))).
  destruct (isMutation (req_method req)
            && ((200 <=? statusCode w) && (statusCode w <? 300)));
    [|reflexivity].
  unfold bind at 1. unfold logSuccess. rewrite log_run. simpl.
  destruct (completion_data _ _ _ _ _ _ _) as [d|e]; [|reflexivity].
  destruct (logstyx cfg _ d); [|reflexivity].
  unfold after_reading. destruct (trackPerformance cfg); reflexivity.
Qed.

(** In [src/lib/middleware.js] a request with a read-only method is never
    logged, whatever its status and however long it took: the wrapped
    operation of that file is the original one. *)
Theorem wrapped_lib_ignores_readonly E cfg req m args w :
  isMutation (req_method req) = false ->
  wrapped_lib E cfg req m args w
  = (originals E m args, add_forwarded (m, args, statusCode w) w).
Proof.
  intros Hm. rewrite wrapped_lib_run. cbv zeta. rewrite Hm. simpl.
  now destruct (logged w).
Qed.

Lemma wrapped_lib_ignores_readonly_witness :
  let E := env_after 5000 in
  let w := started_world E accepting_config in
  isMutation (req_method get_users) = false /\
  wrapped_lib E accepting_config get_users OpJson json_ok w
  = (originals E OpJson json_ok,
     add_forwarded (OpJson, json_ok, statusCode w) w).
Proof.
  intros E w. split; [reflexivity|].
  apply (wrapped_lib_ignores_readonly E accepting_config get_users OpJson
           json_ok w).
  reflexivity.
Defined.

(** For the state-changing methods the two versions of the wrapper agree:
    the same result, the same records at the sink, the same calls
    forwarded, the same flag. *)
Theorem wrappers_agree_on_mutations E cfg req m args w :
  isMutation (req_method req) = true ->
  fst (wrapped E cfg req m args w) = fst (wrapped_lib E cfg req m args w) /\
  sinkCalls (snd (wrapped E cfg req m args w))
  = sinkCalls (snd (wrapped_lib E cfg req m args w)) /\
  forwarded (snd (wrapped E cfg req m args w))
  = forwarded (snd (wrapped_lib E cfg req m args w)) /\
  logged (snd (wrapped E cfg req m args w))
  = logged (snd (wrapped_lib E cfg req m args w)).
Proof.
  intros Hm. rewrite wrapped_run, wrapped_lib_run. cbv zeta. rewrite Hm.
  simpl. destruct (logged w) eqn:Hl; [auto|].
  destruct (isSuccessful (statusCode w)) eqn:Hs; simpl.
  - destruct (completion_data _ _ _ _ _ _ _) as [d|e]; [|auto].
    destruct (logstyx cfg _ d); auto.
  - destruct (trackPerformance cfg && started (startTime w)); simpl; auto.
Qed.

Lemma wrappers_agree_on_mutations_witness :
  let E := env_after 1500 in
  let w := started_world E accepting_config in
  isMutation (req_method put_user) = true /\
  fst (wrapped E accepting_config put_user OpJson json_ok w)
  = fst (wrapped_lib E accepting_config put_user OpJson json_ok w) /\
  sinkCalls (snd (wrapped E accepting_config put_user OpJson json_ok w))
  = sinkCalls (snd (wrapped_lib E accepting_config put_user OpJson json_ok w))
  /\
  forwarded (snd (wrapped E accepting_config put_user OpJson json_ok w))
  = forwarded (snd (wrapped_lib E accepting_config put_user OpJson json_ok w))
  /\
  logged (snd (wrapped E accepting_config put_user OpJson json_ok w))
  = logged (snd (wrapped_lib E accepting_config put_user OpJson json_ok w)).
Proof.
  intros E w. split; [reflexivity|].
  apply (wrappers_agree_on_mutations E accepting_config put_user OpJson
           json_ok w).
  reflexivity.
Defined.
